(** * Layer composition of Slic3r (src/xs/src/libslic3r/Layer.cpp)

    Shallow embedding of [Slic3r::Layer]: region management, [make_slices]
    and [make_perimeters], together with the layer destructor and its
    neighbour links.  The polygon-clipping primitives of ClipperUtils and
    the per-region perimeter routine [LayerRegion::make_perimeters] are
    not part of Layer.cpp; they are parameters of the development (a
    [PolygonAlgebra] instance and a function argument).  C++ exceptions
    are modelled by a state-and-outcome monad in which the state reached
    before a [throw] is kept, as it is in C++. *)

From stdpp Require Import base list gmap sets strings pretty.
From Stdlib Require Import ZArith Lia Sorting.Sorted.

Open Scope Z_scope.

(** ** Outcomes of a C++ call *)

(** [OutOfRange] is [std::out_of_range] thrown by [std::vector::at];
    [DegenerateGeometry] is a failure of a clipping primitive. *)
Inductive exn := OutOfRange | DegenerateGeometry.

(** [Undefined] marks undefined behaviour (e.g. erasing through an
    iterator past the end of a vector). *)
Inductive outcome (A : Type) :=
| Ok (a : A)
| Throw (e : exn)
| Undefined.
Arguments Ok {A} a.
Arguments Throw {A} e.
Arguments Undefined {A}.

Definition point := (Z * Z)%type.

(** ** Surface types (Surface.hpp) *)
Inductive SurfaceType :=
| stTop | stBottom | stBottomBridge | stInternal | stInternalSolid
| stInternalBridge | stInternalVoid.

Global Instance SurfaceType_eq_dec : EqDecision SurfaceType.
Proof. solve_decision. Defined.

(** ** The external polygon algebra (ClipperUtils / Polygon.hpp) *)
Class PolygonAlgebra := {
  ExPolygon : Type;
  Polygon : Type;
  (** [operator Polygons()] of an ExPolygon: contour and holes *)
  ex_to_polygons : ExPolygon -> list Polygon;
  (** [ex.contour.first_point()] *)
  first_point : ExPolygon -> point;
  (** [union_(const Polygons&, ExPolygons* )] *)
  union_ : list Polygon -> outcome (list ExPolygon);
  (** [union_ex(const Polygons&, bool safety_offset)] *)
  union_ex : list Polygon -> bool -> outcome (list ExPolygon);
  (** [intersection_ex(const Polygons&, const Polygons&)] *)
  intersection_ex : list Polygon -> list Polygon -> outcome (list ExPolygon)
}.

(** ** Region configuration (PrintConfig.hpp): the fields compared by
    [Layer::make_perimeters].  A C++ [double] is an abstract [Float] whose
    [==] is decidable equality; [float_to_string] is [ostream << double]. *)
Class FloatRepr := {
  Float : Type;
  Float_eq_dec :: EqDecision Float;
  float_to_string : Float -> string
}.

(** ** Nearest-neighbour chaining (Geometry.cpp, [chained_path]) *)

Definition sqdist (a b : point) : Z := (a.1 - b.1) ^ 2 + (a.2 - b.2) ^ 2.

(** Modelled from the spec: [Slic3r::Geometry::chained_path] is not in
    src/.  The spec (section 4.2) describes it as a greedy nearest-neighbour
    chaining over the points, ties broken by original input index.  The
    chain starts at the first point; [nearest_in p rem] is the first
    (lowest index) among the remaining points nearest to [p]. *)
Fixpoint nearest_in (p : point) (rem : list (nat * point)) : option (nat * point) :=
  match rem with
  | [] => None
  | x :: rem' =>
      match nearest_in p rem' with
      | None => Some x
      | Some y => if sqdist p y.2 <? sqdist p x.2 then Some y else Some x
      end
  end.

Fixpoint chain (fuel : nat) (start : point) (rem : list (nat * point)) : list nat :=
  match fuel with
  | O => []
  | S f =>
      match nearest_in start rem with
      | None => []
      | Some (i, q) => i :: chain f q (List.filter (fun x => negb (Nat.eqb x.1 i)) rem)
      end
  end.

(** Modelled from the spec: see [nearest_in]. *)
Definition chained_path (pts : list point) : list nat :=
  match pts with
  | [] => []
  | p0 :: _ => chain (length pts) p0 (zip (seq 0 (length pts)) pts)
  end.

Section Layer_model.
Context {FR : FloatRepr} {PA : PolygonAlgebra}.

(** [ConfigOptionFloatOrPercent] *)
Record FloatOrPercent := { fop_value : Float; fop_percent : bool }.

(** [ConfigOptionFloatOrPercent::serialize] *)
Definition serialize_float_or_percent (o : FloatOrPercent) : string :=
  float_to_string (fop_value o) +:+ (if fop_percent o then "%" else "").

Record PrintRegionConfig := {
  perimeter_extruder : Z;
  perimeters : Z;
  perimeter_speed : Float;
  gap_fill_speed : Float;
  overhangs : bool;
  perimeter_extrusion_width : FloatOrPercent;
  thin_walls : bool;
  external_perimeters_first : bool
}.

(** The condition of lines 192-199 of Layer.cpp. *)
Definition config_compatible (config other_config : PrintRegionConfig) : bool :=
  bool_decide (perimeter_extruder config = perimeter_extruder other_config)
  && bool_decide (perimeters config = perimeters other_config)
  && bool_decide (perimeter_speed config = perimeter_speed other_config)
  && bool_decide (gap_fill_speed config = gap_fill_speed other_config)
  && bool_decide (overhangs config = overhangs other_config)
  && bool_decide (serialize_float_or_percent (perimeter_extrusion_width config)
                  = serialize_float_or_percent (perimeter_extrusion_width other_config))
  && bool_decide (thin_walls config = thin_walls other_config)
  && bool_decide (external_perimeters_first config = external_perimeters_first other_config).

(** The eight compared values of a configuration, the extrusion width
    in its serialized form. *)
Definition perimeter_key (c : PrintRegionConfig) :=
  (perimeter_extruder c, perimeters c, perimeter_speed c, gap_fill_speed c,
   overhangs c, serialize_float_or_percent (perimeter_extrusion_width c),
   thin_walls c, external_perimeters_first c).


(** ** Surfaces and regions *)

(** [Slic3r::Surface]; the thickness and bridge-angle attributes, which
    Layer.cpp only copies along, are left out. *)
Record Surface := {
  surface_type : SurfaceType;
  extra_perimeters : nat;
  expolygon : ExPolygon
}.

(** [Surface s = t; s.expolygon = ex;]: clone type and extra_perimeters. *)
Definition clone_with (t : Surface) (ex : ExPolygon) : Surface :=
  {| surface_type := surface_type t; extra_perimeters := extra_perimeters t;
     expolygon := ex |}.

(** [SurfaceCollection::operator Polygons()] *)
Definition surfaces_to_polygons (ss : list Surface) : list Polygon :=
  concat (map (fun s => ex_to_polygons (expolygon s)) ss).

(** [Slic3r::LayerRegion] as far as Layer.cpp uses it; [region_config] is
    [region()->config] of the shared [PrintRegion]. *)
Record LayerRegion := {
  region_config : PrintRegionConfig;
  lr_slices : list Surface;
  perimeter_surfaces : list Surface;
  fill_surfaces : list Surface
}.

Definition set_fill_surfaces (ss : list Surface) (r : LayerRegion) : LayerRegion :=
  {| region_config := region_config r; lr_slices := lr_slices r;
     perimeter_surfaces := perimeter_surfaces r; fill_surfaces := ss |}.

Definition set_perimeter_surfaces (ss : list Surface) (r : LayerRegion) : LayerRegion :=
  {| region_config := region_config r; lr_slices := lr_slices r;
     perimeter_surfaces := ss; fill_surfaces := fill_surfaces r |}.

(** A layer address (the value of a [Layer*]). *)
Definition LayerPtr := nat.

(** [Slic3r::Layer]; heights and the owning object are left out. *)
Record Layer := {
  layer_id : nat;
  upper_layer : option LayerPtr;
  lower_layer : option LayerPtr;
  regions : list LayerRegion;
  slicing_errors : bool;
  slices : list ExPolygon;
  perimeter_expolygons : list ExPolygon
}.

Definition set_regions (rs : list LayerRegion) (L : Layer) : Layer :=
  {| layer_id := layer_id L; upper_layer := upper_layer L; lower_layer := lower_layer L;
     regions := rs; slicing_errors := slicing_errors L; slices := slices L;
     perimeter_expolygons := perimeter_expolygons L |}.

Definition set_slices (sl : list ExPolygon) (L : Layer) : Layer :=
  {| layer_id := layer_id L; upper_layer := upper_layer L; lower_layer := lower_layer L;
     regions := regions L; slicing_errors := slicing_errors L; slices := sl;
     perimeter_expolygons := perimeter_expolygons L |}.

Definition set_perimeter_expolygons (pe : list ExPolygon) (L : Layer) : Layer :=
  {| layer_id := layer_id L; upper_layer := upper_layer L; lower_layer := lower_layer L;
     regions := regions L; slicing_errors := slicing_errors L; slices := slices L;
     perimeter_expolygons := pe |}.

Definition set_upper_layer (u : option LayerPtr) (L : Layer) : Layer :=
  {| layer_id := layer_id L; upper_layer := u; lower_layer := lower_layer L;
     regions := regions L; slicing_errors := slicing_errors L; slices := slices L;
     perimeter_expolygons := perimeter_expolygons L |}.

Definition set_lower_layer (l : option LayerPtr) (L : Layer) : Layer :=
  {| layer_id := layer_id L; upper_layer := upper_layer L; lower_layer := l;
     regions := regions L; slicing_errors := slicing_errors L; slices := slices L;
     perimeter_expolygons := perimeter_expolygons L |}.

(** ** The method monad: a [Layer] member function run on [*this] *)

Definition M (A : Type) := Layer -> Layer * outcome A.

Global Instance M_ret : MRet M := fun A a L => (L, Ok a).
Global Instance M_bind : MBind M := fun A B f m L =>
  match m L with
  | (L', Ok a) => f a L'
  | (L', Throw e) => (L', Throw e)
  | (L', Undefined) => (L', Undefined)
  end.

Definition lift {A} (o : outcome A) : M A := fun L => (L, o).
Definition get_layer : M Layer := fun L => (L, Ok L).
Definition modify (f : Layer -> Layer) : M unit := fun L => (f L, Ok tt).

(** Update the region at index [i] of [this->regions]. *)
Definition modify_region (i : nat) (f : LayerRegion -> LayerRegion) : M unit :=
  modify (fun L => set_regions (alter f i (regions L)) L).

(** ** Region management (Layer.cpp lines 63-97) *)

Definition region_count (L : Layer) : nat := length (regions L).

(** [regions.at(idx)]: the [int] index converts to [size_t], so a negative
    index is out of range as well. *)
Definition get_region (idx : Z) : M LayerRegion := fun L =>
  if bool_decide (0 <= idx < Z.of_nat (length (regions L))) then
    match regions L !! Z.to_nat idx with
    | Some r => (L, Ok r)
    | None => (L, Throw OutOfRange)
    end
  else (L, Throw OutOfRange).

Definition new_layer_region (config : PrintRegionConfig) : LayerRegion :=
  {| region_config := config; lr_slices := []; perimeter_surfaces := [];
     fill_surfaces := [] |}.

(** Returns the index of the new region as its handle. *)
Definition add_region (config : PrintRegionConfig) : M nat := fun L =>
  (set_regions (regions L ++ [new_layer_region config]) L, Ok (length (regions L))).

(** [regions.begin() + idx] is dereferenced and erased without a range
    check: outside [0, size) this is undefined behaviour. *)
Definition delete_region (idx : Z) : M unit := fun L =>
  if bool_decide (0 <= idx < Z.of_nat (length (regions L))) then
    (set_regions (delete (Z.to_nat idx) (regions L)) L, Ok tt)
  else (L, Undefined).

(** [for (int i = regions.size()-1; i >= 0; --i) delete_region(i);] *)
Fixpoint clear_regions_from (i : nat) : M unit :=
  match i with
  | O => mret tt
  | S k => delete_region (Z.of_nat k) ;; clear_regions_from k
  end.

Definition clear_regions : M unit := fun L => clear_regions_from (length (regions L)) L.

(** ** [Layer::make_slices] (lines 99-133) *)

Definition region_polygons (r : LayerRegion) : list Polygon :=
  surfaces_to_polygons (lr_slices r).

(** The general branch: union of all regions' slice polygons. *)
Definition union_path (rs : list LayerRegion) : outcome (list ExPolygon) :=
  union_ (concat (map region_polygons rs)).

Definition merged_slices (rs : list LayerRegion) : outcome (list ExPolygon) :=
  match rs with
  | [r] => Ok (map expolygon (lr_slices r))
  | _ => union_path rs
  end.

(** Lines 119-132: order the islands by chaining their first points. *)
Definition order_slices (sl : list ExPolygon) : list ExPolygon :=
  omap (fun i => sl !! i) (chained_path (map first_point sl)).

Definition make_slices : M unit :=
  L ← get_layer;
  sl ← lift (merged_slices (regions L));
  modify (set_slices (order_slices sl)).

(** Lines 106-117 with the single-region test of line 102 left out: the
    general union branch taken for any number of regions. *)
Definition make_slices_union_path : M unit :=
  L ← get_layer;
  sl ← lift (union_path (regions L));
  modify (set_slices (order_slices sl)).


(** ** [Layer::make_perimeters] (lines 166-273) *)

Section make_perimeters.

(** [LayerRegion::make_perimeters(slices, &perimeter_surfaces, &fill_surfaces)],
    external to Layer.cpp: called on a region with input surfaces, it
    yields the surfaces it appends to the perimeter and to the fill
    collection, or fails. *)
Variable region_make_perimeters :
  LayerRegion -> list Surface -> outcome (list Surface * list Surface).

(** Lines 185-203: the region [i] followed by every later region whose
    configuration is compatible with that of [i].  The scan does not
    consult [done]. *)
Definition find_compatible (cfgs : list PrintRegionConfig) (i : nat) : list nat :=
  match cfgs !! i with
  | None => []
  | Some config =>
      i :: List.filter
             (fun j => match cfgs !! j with
                       | Some other_config => config_compatible config other_config
                       | None => false
                       end)
             (seq (S i) (length cfgs - S i))
  end.

Definition region_configs (L : Layer) : list PrintRegionConfig :=
  map region_config (regions L).

(** Line 217: [slices[s->extra_perimeters].push_back( *s)] on a
    [std::map<unsigned short, Surfaces>], kept in ascending key order. *)
Fixpoint map_push (k : nat) (s : Surface) (m : list (nat * list Surface))
  : list (nat * list Surface) :=
  match m with
  | [] => [(k, [s])]
  | (k', ss) :: m' =>
      if Nat.eqb k k' then (k', ss ++ [s]) :: m'
      else if Nat.ltb k k' then (k, [s]) :: m
      else (k', ss) :: map_push k s m'
  end.

Definition bucket_slices (layerms : list LayerRegion) : list (nat * list Surface) :=
  foldl (fun m s => map_push (extra_perimeters s) s m) []
        (concat (map lr_slices layerms)).

(** [for (ex in expp) { Surface s = src.front(); s.expolygon = ex; push(s); }]:
    [front()] of an empty vector is undefined behaviour. *)
Definition clone_all (src : list Surface) (expp : list ExPolygon) : outcome (list Surface) :=
  match expp, src with
  | [], _ => Ok []
  | _, s0 :: _ => Ok (map (clone_with s0) expp)
  | _ :: _, [] => Undefined
  end.

(** Lines 222-230: union each bucket (with safety offset) and re-tag. *)
Fixpoint merge_buckets (bs : list (nat * list Surface)) : M (list Surface) :=
  match bs with
  | [] => mret []
  | (_, ss) :: bs' =>
      expp ← lift (union_ex (surfaces_to_polygons ss) true);
      merged ← lift (clone_all ss expp);
      rest ← merge_buckets bs';
      mret (merged ++ rest)
  end.

(** Lines 205-211: the single-region optimization. *)
Definition make_perimeters_single (i : nat) : M unit :=
  modify_region i (fun r => set_perimeter_surfaces [] (set_fill_surfaces [] r)) ;;
  L ← get_layer;
  match regions L !! i with
  | None => mret tt
  | Some r =>
      '(ps, fs) ← lift (region_make_perimeters r (lr_slices r));
      modify_region i (fun r => set_perimeter_surfaces (perimeter_surfaces r ++ ps)
                                  (set_fill_surfaces (fill_surfaces r ++ fs) r)) ;;
      L' ← get_layer;
      match regions L' !! i with
      | None => mret tt
      | Some r' => modify (set_perimeter_expolygons (map expolygon (perimeter_surfaces r')))
      end
  end.

(** Lines 243-269: split the pooled fill and perimeter surfaces among the
    members of the group; both are re-tagged from [fill_surfaces.front()]. *)
Fixpoint redistribute (fs ps : list Surface) (layerms : list nat) : M unit :=
  match layerms with
  | [] => mret tt
  | l :: rest =>
      L ← get_layer;
      match regions L !! l with
      | None => redistribute fs ps rest
      | Some r =>
          expp ← lift (intersection_ex (surfaces_to_polygons fs)
                                       (surfaces_to_polygons (lr_slices r)));
          modify_region l (set_fill_surfaces []) ;;
          pieces ← lift (clone_all fs expp);
          modify_region l (set_fill_surfaces pieces) ;;
          expp' ← lift (intersection_ex (surfaces_to_polygons ps)
                                        (surfaces_to_polygons (lr_slices r)));
          modify_region l (set_perimeter_surfaces []) ;;
          pieces' ← lift (clone_all fs expp');
          modify_region l (set_perimeter_surfaces pieces') ;;
          redistribute fs ps rest
      end
  end.

(** Lines 212-271: a group of several regions led by region [i]. *)
Definition make_perimeters_group (i : nat) (layerms : list nat) : M unit :=
  L ← get_layer;
  new_slices ← merge_buckets (bucket_slices (omap (fun j => regions L !! j) layerms));
  match regions L !! i with
  | None => mret tt
  | Some leader =>
      '(ps, fs) ← lift (region_make_perimeters leader new_slices);
      modify (set_perimeter_expolygons (map expolygon ps)) ;;
      (if bool_decide (fs = []) then mret tt else redistribute fs ps layerms)
  end.

Definition process_group (i : nat) (layerms : list nat) : M unit :=
  match layerms with
  | [_] => make_perimeters_single i
  | _ => make_perimeters_group i layerms
  end.

(** The [FOREACH_LAYERREGION] loop with its [done] set. *)
Fixpoint make_perimeters_loop (ids : list nat) (done : gset nat) : M unit :=
  match ids with
  | [] => mret tt
  | i :: ids' =>
      if decide (i ∈ done) then make_perimeters_loop ids' done
      else
        L ← get_layer;
        let layerms := find_compatible (region_configs L) i in
        process_group i layerms ;;
        make_perimeters_loop ids' (done ∪ list_to_set layerms)
  end.

Definition make_perimeters : M unit :=
  L ← get_layer;
  make_perimeters_loop (seq 0 (length (regions L))) ∅.

(** The groups the loop forms, computed from the configurations alone. *)
Fixpoint perimeter_groups_from (cfgs : list PrintRegionConfig) (ids : list nat)
  (done : gset nat) : list (list nat) :=
  match ids with
  | [] => []
  | i :: ids' =>
      if decide (i ∈ done) then perimeter_groups_from cfgs ids' done
      else find_compatible cfgs i
           :: perimeter_groups_from cfgs ids' (done ∪ list_to_set (find_compatible cfgs i))
  end.

Definition perimeter_groups (cfgs : list PrintRegionConfig) : list (list nat) :=
  perimeter_groups_from cfgs (seq 0 (length cfgs)) ∅.

(** Process the groups one after the other. *)
Fixpoint run_groups (gs : list (list nat)) : M unit :=
  match gs with
  | [] => mret tt
  | g :: gs' =>
      match g with
      | i :: _ => process_group i g
      | [] => mret tt
      end ;;
      run_groups gs'
  end.

End make_perimeters.

(** ** Layers in memory and [Layer::~Layer] (lines 9-36) *)

(** [Layer::Layer]: both neighbour links start as [NULL]. *)
Definition new_layer (id : nat) : Layer :=
  {| layer_id := id; upper_layer := None; lower_layer := None; regions := [];
     slicing_errors := false; slices := []; perimeter_expolygons := [] |}.

(** [if (upper_layer) upper_layer->lower_layer = NULL;] *)
Definition unlink_upper (a : LayerPtr) (h : gmap LayerPtr Layer) : gmap LayerPtr Layer :=
  match h !! a with
  | Some A =>
      match upper_layer A with
      | Some u => alter (set_lower_layer None) u h
      | None => h
      end
  | None => h
  end.

(** [if (lower_layer) lower_layer->upper_layer = NULL;], reading
    [this->lower_layer] after the previous statement. *)
Definition unlink_lower (a : LayerPtr) (h : gmap LayerPtr Layer) : gmap LayerPtr Layer :=
  match h !! a with
  | Some A =>
      match lower_layer A with
      | Some l => alter (set_upper_layer None) l h
      | None => h
      end
  | None => h
  end.

Definition unlink_neighbors (a : LayerPtr) (h : gmap LayerPtr Layer) : gmap LayerPtr Layer :=
  unlink_lower a (unlink_upper a h).

(** [this->clear_regions()] *)
Definition release_regions (a : LayerPtr) (h : gmap LayerPtr Layer) : gmap LayerPtr Layer :=
  match h !! a with
  | Some A => <[a := fst (clear_regions A)]> h
  | None => h
  end.

(** [delete a]: the destructor body, then the storage is freed.  This is
    the C++ behaviour when [a] is live and its links point to live layers
    (as [links_symmetric] ensures); destroying a freed layer or writing
    through a dangling link is undefined behaviour in C++, which the
    no-op cases of [alter] and of the lookups here do not represent. *)
Definition layer_destroy (a : LayerPtr) (h : gmap LayerPtr Layer) : gmap LayerPtr Layer :=
  delete a (release_regions a (unlink_neighbors a h)).

(** Every neighbour link points to a live layer that links back. *)
Definition links_symmetric (h : gmap LayerPtr Layer) : Prop :=
  ∀ a A, h !! a = Some A →
    (∀ b, upper_layer A = Some b → ∃ B, h !! b = Some B ∧ lower_layer B = Some a) ∧
    (∀ b, lower_layer A = Some b → ∃ B, h !! b = Some B ∧ upper_layer B = Some a).

End Layer_model.

(** ** A concrete polygon algebra on the unit grid

    Modelled from the spec: the clipping primitives of ClipperUtils are
    not in src/.  Following the spec (sections 1, 6, 7 and the glossary),
    a polygon with holes is represented by the unit cells it covers (its
    first cell standing for the first point of its contour); a union or an
    intersection returns the islands of the result, i.e. its maximal
    edge-connected parts; a primitive given a zero-area polygon fails with
    [DegenerateGeometry]. *)
Module Grid.

Definition cell := point.

Definition mem (c : cell) (cs : list cell) : bool :=
  existsb (fun d => Z.eqb c.1 d.1 && Z.eqb c.2 d.2) cs.

(** The cells of a list, each once, in order of first occurrence. *)
Definition cells_union (cs : list cell) : list cell :=
  foldl (fun acc c => if mem c acc then acc else acc ++ [c]) [] cs.

Definition adjacent (a b : cell) : bool :=
  Z.eqb (Z.abs (a.1 - b.1) + Z.abs (a.2 - b.2)) 1.

(** Grow [comp] by the cells of [rest] edge-connected to it. *)
Fixpoint grow (fuel : nat) (comp rest : list cell) : list cell * list cell :=
  match fuel with
  | O => (comp, rest)
  | S f =>
      let nb := List.filter (fun c => existsb (adjacent c) comp) rest in
      let rest' := List.filter (fun c => negb (existsb (adjacent c) comp)) rest in
      match nb with
      | [] => (comp, rest)
      | _ => grow f (comp ++ nb) rest'
      end
  end.

Fixpoint components (fuel : nat) (cs : list cell) : list (list cell) :=
  match fuel with
  | O => []
  | S f =>
      match cs with
      | [] => []
      | c :: cs' => let '(comp, rest) := grow (length cs') [c] cs' in
                    comp :: components f rest
      end
  end.

Definition islands (cs : list cell) : list (list cell) :=
  let u := cells_union cs in components (length u) u.

Definition degenerate (ps : list (list cell)) : bool :=
  existsb (fun p => match p with [] => true | _ => false end) ps.

Definition grid_union (ps : list (list cell)) : outcome (list (list cell)) :=
  if degenerate ps then Throw DegenerateGeometry else Ok (islands (concat ps)).

Definition grid_intersection (ps qs : list (list cell)) : outcome (list (list cell)) :=
  if degenerate ps || degenerate qs then Throw DegenerateGeometry
  else Ok (islands (List.filter (fun c => mem c (concat qs)) (concat ps))).

#[export] Instance grid_algebra : PolygonAlgebra := {|
  ExPolygon := list cell;
  Polygon := list cell;
  ex_to_polygons e := [e];
  first_point e := hd (0, 0) e;
  union_ := grid_union;
  union_ex ps _ := grid_union ps;
  intersection_ex := grid_intersection
|}.

(** Integral speeds and widths, printed in decimal. *)
#[export] Instance int_floats : FloatRepr := {|
  Float := Z;
  float_to_string := pretty
|}.

Definition neighbours (c : cell) : list cell :=
  [(c.1 + 1, c.2); (c.1 - 1, c.2); (c.1, c.2 + 1); (c.1, c.2 - 1)].

Definition boundary (cs : list cell) : list cell :=
  List.filter (fun c => existsb (fun d => negb (mem d cs)) (neighbours c)) cs.

Definition interior (cs : list cell) : list cell :=
  List.filter (fun c => forallb (fun d => mem d cs) (neighbours c)) cs.

(** An instance of the per-region perimeter routine: one loop of
    perimeter along the boundary cells of each input surface (keeping its
    type), the interior cells left as [stInternal] fill; a zero-area input
    surface makes it fail. *)
Definition grid_make_perimeters (_ : LayerRegion) (ss : list Surface)
  : outcome (list Surface * list Surface) :=
  if existsb (fun s => match expolygon s with [] => true | _ => false end) ss
  then Throw DegenerateGeometry
  else Ok (concat (map (fun s => map (clone_with s) (islands (boundary (expolygon s)))) ss),
           concat (map (fun s => map (fun ex => {| surface_type := stInternal;
                                                 extra_perimeters := extra_perimeters s;
                                                 expolygon := ex |})
                                     (islands (interior (expolygon s)))) ss)).

End Grid.

(** * Properties *)

(** ** The chaining order *)

Section Chain.
Variable pts : list point.

(** [j] is at least as near to [p] as [m], and not after it on a tie. *)
Definition nearer (p : point) (j m : nat) : Prop :=
  ∃ pj pm, pts !! j = Some pj ∧ pts !! m = Some pm ∧
    (sqdist p pj < sqdist p pm ∨ (sqdist p pj = sqdist p pm ∧ (j ≤ m)%nat))%Z.

Definition rem_ok (rem : list (nat * point)) : Prop :=
  StronglySorted (λ x y, (x.1 < y.1)%nat) rem ∧ ∀ x, x ∈ rem → pts !! x.1 = Some x.2.

Lemma nearest_in_spec p rem :
  StronglySorted (λ x y, (x.1 < y.1)%nat) rem → rem ≠ [] →
  ∃ x, nearest_in p rem = Some x ∧ x ∈ rem ∧
    ∀ y, y ∈ rem → (sqdist p x.2 < sqdist p y.2 ∨
                    (sqdist p x.2 = sqdist p y.2 ∧ (x.1 ≤ y.1)%nat))%Z.
Proof.
  induction rem as [|x rem IH]; intros Hs Hne; [done|].
  apply StronglySorted_inv in Hs as [Hs Hx]. simpl.
  destruct rem as [|z rem'].
  - simpl. exists x. split_and!; [done|left|]. intros y Hy.
    apply list_elem_of_singleton in Hy as ->. right; lia.
  - destruct (IH Hs ltac:(done)) as (y & Hy & Hyin & Hymin). rewrite Hy.
    destruct (Z.ltb_spec (sqdist p y.2) (sqdist p x.2)).
    + exists y. split_and!; [done|by right|]. intros w Hw.
      apply elem_of_cons in Hw as [->|Hw]; [by left|auto].
    + exists x. split_and!; [done|left|]. intros w Hw.
      apply elem_of_cons in Hw as [->|Hw]; [right; lia|].
      destruct (Hymin w Hw) as [?|[? ?]]; [left; lia|].
      destruct (Z.eq_dec (sqdist p x.2) (sqdist p w.2)); [right; split; [done|]|left; lia].
      apply list_elem_of_In in Hw. eapply Forall_forall in Hx; [|done]. simpl in Hx. lia.
Qed.

Definition drop_idx (i : nat) (rem : list (nat * point)) : list (nat * point) :=
  List.filter (λ x, negb (Nat.eqb x.1 i)) rem.

Lemma drop_idx_sorted i rem :
  StronglySorted (λ x y, (x.1 < y.1)%nat) rem →
  StronglySorted (λ x y, (x.1 < y.1)%nat) (drop_idx i rem).
Proof.
  induction rem as [|x rem IH]; intros Hs; simpl; [constructor|].
  apply StronglySorted_inv in Hs as [Hs Hx].
  destruct (negb (x.1 =? i)%nat); [|auto]. constructor; [auto|].
  apply Forall_forall. intros y Hy. apply list_elem_of_In, filter_In in Hy as [Hy _]. apply list_elem_of_In in Hy.
  by eapply Forall_forall in Hx.
Qed.

Lemma drop_idx_ok i rem : rem_ok rem → rem_ok (drop_idx i rem).
Proof.
  intros [Hs Hp]. split; [by apply drop_idx_sorted|].
  intros x Hx. apply Hp. apply list_elem_of_In in Hx. apply filter_In in Hx as [Hx _].
  by apply list_elem_of_In.
Qed.

Lemma drop_idx_length x rem : x ∈ rem → (length (drop_idx x.1 rem) < length rem)%nat.
Proof.
  induction rem as [|y rem IH]; intros Hx; [by apply elem_of_nil in Hx|].
  simpl. pose proof (filter_length (λ x0, negb (x0.1 =? x.1)%nat) rem) as Hle.
  apply elem_of_cons in Hx as [<-|Hx].
  - rewrite Nat.eqb_refl. simpl. unfold drop_idx in *. lia.
  - specialize (IH Hx). unfold drop_idx in *. destruct (negb (y.1 =? x.1)%nat); simpl; lia.
Qed.

Lemma drop_idx_perm x rem :
  StronglySorted (λ x y, (x.1 < y.1)%nat) rem → x ∈ rem →
  map fst rem ≡ₚ x.1 :: map fst (drop_idx x.1 rem).
Proof.
  induction rem as [|y rem IH]; intros Hs Hx; [by apply elem_of_nil in Hx|].
  apply StronglySorted_inv in Hs as [Hs Hy]. simpl.
  apply elem_of_cons in Hx as [<-|Hx].
  - rewrite Nat.eqb_refl. simpl. f_equiv.
    assert (drop_idx x.1 rem = rem) as ->; [|done].
    unfold drop_idx. apply forallb_filter_id. apply forallb_forall.
    intros z Hz. apply list_elem_of_In in Hz. eapply Forall_forall in Hy; [|done]. simpl in Hy.
    apply negb_true_iff, Nat.eqb_neq. lia.
  - assert (Hlt : (y.1 < x.1)%nat).
    { rewrite Forall_forall in Hy. by apply Hy. }
    assert (Hneq : (y.1 =? x.1)%nat = false) by (apply Nat.eqb_neq; lia).
    rewrite Hneq. simpl. rewrite (IH Hs Hx). apply perm_swap.
Qed.

Lemma nearest_nearer start rem x :
  rem_ok rem → nearest_in start rem = Some x → x ∈ rem ∧
  ∀ m, m ∈ map fst rem → nearer start x.1 m.
Proof.
  intros [Hs Hp] Hx.
  destruct rem as [|r0 rem']; [done|].
  destruct (nearest_in_spec start (r0 :: rem') Hs ltac:(done)) as (x' & Hx' & Hin & Hmin).
  rewrite Hx in Hx'. injection Hx' as <-. split; [done|].
  intros m Hm. apply list_elem_of_fmap in Hm as (y & -> & Hy).
  exists x.2, y.2. split_and!; [by apply Hp|by apply Hp|by apply Hmin].
Qed.

Lemma chain_spec fuel start rem :
  rem_ok rem → (length rem ≤ fuel)%nat →
  chain fuel start rem ≡ₚ map fst rem ∧
  (∀ i o', chain fuel start rem = i :: o' → ∀ m, m ∈ map fst rem → nearer start i m) ∧
  (∀ k i j m, chain fuel start rem !! k = Some i → chain fuel start rem !! S k = Some j →
     m ∈ drop (S k) (chain fuel start rem) → ∃ p, pts !! i = Some p ∧ nearer p j m).
Proof.
  revert start rem. induction fuel as [|fuel IH]; intros start rem Hok Hlen.
  - destruct rem; [|simpl in Hlen; lia]. simpl. split_and!; [done| |]; intros *; done.
  - simpl. destruct (nearest_in start rem) as [[i q]|] eqn:Hn.
    + destruct (nearest_nearer start rem (i, q) Hok Hn) as [Hin Hnear]. simpl in Hnear.
      pose proof (drop_idx_length (i, q) rem Hin) as Hl. simpl in Hl.
      destruct (IH q (drop_idx i rem) (drop_idx_ok i rem Hok) ltac:(lia)) as (Hperm & Hfirst & Hsteps).
      fold (drop_idx i rem). split_and!.
      * rewrite Hperm. symmetry. exact (drop_idx_perm (i, q) rem (proj1 Hok) Hin).
      * intros i' o' [= <- _]. done.
      * intros [|k] i' j m Hi' Hj Hm.
        -- simpl in Hi', Hj, Hm. injection Hi' as <-.
           exists q. split; [apply (proj2 Hok (i, q) Hin)|].
           destruct (chain fuel q (drop_idx i rem)) as [|j' o'] eqn:Ho; [done|].
           simpl in Hj. injection Hj as ->. apply (Hfirst j o' eq_refl).
           simpl in Hm. by rewrite <- Hperm.
        -- simpl in Hi', Hj, Hm. eauto.
    + destruct rem as [|r rem']; [|destruct (nearest_in_spec start (r :: rem') (proj1 Hok) ltac:(done)) as (? & ? & _); congruence].
      simpl. split_and!; [done| |]; intros *; [done|]. intros Hk. by rewrite lookup_nil in Hk.
Qed.

Lemma zip_seq_ok s (l : list point) :
  StronglySorted (λ x y, (x.1 < y.1)%nat) (zip (seq s (length l)) l) ∧
  (∀ x, x ∈ zip (seq s (length l)) l → (s ≤ x.1)%nat ∧ l !! (x.1 - s)%nat = Some x.2) ∧
  map fst (zip (seq s (length l)) l) = seq s (length l).
Proof.
  revert s. induction l as [|p l IH]; intros s; simpl.
  - split_and!; [constructor|intros x Hx; by apply elem_of_nil in Hx|done].
  - destruct (IH (S s)) as (Hs & Hp & Hf). split_and!.
    + constructor; [done|]. apply Forall_forall. intros x Hx. apply Hp in Hx. simpl. lia.
    + intros x Hx. apply elem_of_cons in Hx as [->|Hx]; simpl.
      * by rewrite Nat.sub_diag.
      * apply Hp in Hx as [Hle Hx]. split; [lia|].
        replace (x.1 - s)%nat with (S (x.1 - S s)) by lia. done.
    + by rewrite Hf.
Qed.

Lemma sqdist_nonneg p q : (0 ≤ sqdist p q)%Z.
Proof. unfold sqdist. nia. Qed.

Lemma sqdist_refl p : sqdist p p = 0%Z.
Proof. unfold sqdist. rewrite !Z.sub_diag. done. Qed.

Lemma chained_path_spec :
  chained_path pts ≡ₚ seq 0 (length pts) ∧
  (pts ≠ [] → head (chained_path pts) = Some 0%nat) ∧
  (∀ k i j m, chained_path pts !! k = Some i → chained_path pts !! S k = Some j →
     m ∈ drop (S k) (chained_path pts) → ∃ p, pts !! i = Some p ∧ nearer p j m).
Proof.
  destruct (zip_seq_ok 0 pts) as (Hs & Hp & Hf).
  assert (Hok : rem_ok (zip (seq 0 (length pts)) pts)).
  { split; [done|]. intros x Hx. apply Hp in Hx as [_ Hx]. by rewrite Nat.sub_0_r in Hx. }
  unfold chained_path. destruct pts as [|p0 pts'] eqn:Hpts.
  { split_and!; [done|done|]. intros k i j m Hk. by rewrite lookup_nil in Hk. }
  rewrite <- Hpts in *.
  assert (Hlen : (length (zip (seq 0 (length pts)) pts) ≤ length pts)%nat).
  { rewrite <- (length_map fst), Hf, length_seq. done. }
  destruct (chain_spec (length pts) p0 _ Hok Hlen) as (Hperm & Hfirst & Hsteps).
  rewrite Hf in Hperm, Hfirst. split_and!; [done| |done].
  intros _. destruct (chain (length pts) p0 _) as [|i o'] eqn:Ho.
  { apply Permutation_nil in Hperm. rewrite Hpts in Hperm. done. }
  simpl. f_equal.
  destruct (Hfirst i o' eq_refl 0%nat) as (pi & pz & Hpi & Hpz & Hd).
  { apply list_elem_of_In, in_seq. rewrite Hpts. simpl. lia. }
  rewrite Hpts in Hpz. simpl in Hpz. injection Hpz as <-.
  rewrite sqdist_refl in Hd. pose proof (sqdist_nonneg p0 pi). lia.
Qed.
End Chain.


Section Properties.
Context {FR : FloatRepr} {PA : PolygonAlgebra}.

(** ** Grouping of regions in [make_perimeters] *)

Lemma config_compatible_key (c c' : PrintRegionConfig) :
  config_compatible c c' = true ↔ perimeter_key c = perimeter_key c'.
Proof.
  unfold config_compatible, perimeter_key.
  rewrite !andb_true_iff, !bool_decide_eq_true. split.
  - intros [[[[[[[H1 H2] H3] H4] H5] H6] H7] H8]. by rewrite H1, H2, H3, H4, H5, H6, H7, H8.
  - intros H. injection H as H1 H2 H3 H4 H5 H6 H7 H8. naive_solver.
Qed.

Definition keyat (cfgs : list PrintRegionConfig) (j : nat) :=
  perimeter_key <$> cfgs !! j.

Lemma find_compatible_spec cfgs i j :
  j ∈ find_compatible cfgs i ↔
  (i < length cfgs ∧ j < length cfgs ∧ i ≤ j ∧ keyat cfgs j = keyat cfgs i)%nat.
Proof.
  unfold find_compatible, keyat.
  destruct (cfgs !! i) as [ci|] eqn:Hi.
  - pose proof (lookup_lt_Some _ _ _ Hi) as Hlt.
    rewrite elem_of_cons, list_elem_of_In, filter_In, in_seq. split.
    + intros [Heq|[[Hj1 Hj] Hc]]; [subst; split_and!; try lia; by rewrite ?Hi|].
      destruct (cfgs !! j) as [cj|] eqn:Hj'; [|done].
      apply config_compatible_key in Hc.
      split_and!; [lia|lia|lia|simpl; by rewrite Hc].
    + intros (_ & Hj & Hij & Hk).
      destruct (decide (j = i)) as [Heq|Hne]; [subst; by left|right].
      destruct (cfgs !! j) as [cj|] eqn:Hj'; [|done].
      simpl in Hk. apply (inj Some) in Hk.
      split; [lia|]. apply config_compatible_key. by symmetry.
  - apply lookup_ge_None in Hi. rewrite elem_of_nil. lia.
Qed.

(** The groups formed from index [s] on, when [done] holds exactly the
    indices sharing their key with some index below [s]. *)
Lemma perimeter_groups_from_spec cfgs s (done : gset nat) :
  (∀ j, j ∈ done ↔ (j < length cfgs ∧ ∃ m, m < s ∧ keyat cfgs m = keyat cfgs j)%nat) →
  (∀ g, g ∈ perimeter_groups_from cfgs (seq s (length cfgs - s)) done →
     ∃ l, (l < length cfgs)%nat ∧ ∀ j, j ∈ g ↔ (j < length cfgs)%nat ∧ keyat cfgs j = keyat cfgs l) ∧
  (∀ i, (s ≤ i < length cfgs)%nat → i ∉ done →
     ∃ g, g ∈ perimeter_groups_from cfgs (seq s (length cfgs - s)) done ∧ i ∈ g).
Proof.
  remember (length cfgs - s)%nat as k eqn:Hk.
  revert s done Hk. induction k as [|k IH]; intros s done Hk Hdone; simpl.
  - split; [intros g Hg; by apply elem_of_nil in Hg|]. intros i Hi. lia.
  - assert (Hs : (s < length cfgs)%nat) by lia.
    case_decide as Hin.
    + (* s already done: nothing changes *)
      assert (Hdone' : ∀ j, j ∈ done ↔ (j < length cfgs ∧ ∃ m, m < S s ∧ keyat cfgs m = keyat cfgs j)%nat).
      { intros j. rewrite Hdone. split; [intros (? & m0 & ? & ?); split; [done|exists m0; split; [lia|done]]|].
        intros (Hj & m & Hm & Hmk). split; [done|].
        destruct (decide (m = s)) as [->|]; [|exists m; split; [lia|done]].
        apply Hdone in Hin as (_ & m' & Hm' & Hmk'). exists m'. split; [lia|congruence]. }
      destruct (IH (S s) done ltac:(lia) Hdone') as [IH1 IH2]. split; [done|].
      intros i Hi Hni. destruct (decide (i = s)) as [->|]; [done|]. apply IH2; [lia|done].
    + set (g0 := find_compatible cfgs s).
      assert (Hdone' : ∀ j, j ∈ done ∪ list_to_set g0 ↔
                 (j < length cfgs ∧ ∃ m, m < S s ∧ keyat cfgs m = keyat cfgs j)%nat).
      { intros j. unfold g0. rewrite elem_of_union, elem_of_list_to_set, find_compatible_spec, Hdone.
        split.
        - intros [(Hj & m & Hm & Hmk)|(_ & Hj & _ & Hk')]; split; try done.
          + exists m. split; [lia|done].
          + exists s. split; [lia|done].
        - intros (Hj & m & Hm & Hmk).
          destruct (decide (m = s)) as [->|]; [|left; split; [done|exists m; split; [lia|done]]].
          destruct (decide (s ≤ j)%nat); [right; split_and!; done|].
          exfalso. apply Hin, Hdone. split; [done|]. exists j. split; [lia|done]. }
      destruct (IH (S s) _ ltac:(lia) Hdone') as [IH1 IH2]. split.
      * intros g Hg. apply elem_of_cons in Hg as [->|Hg]; [|by apply IH1].
        exists s. split; [done|]. intros j. unfold g0. rewrite find_compatible_spec. split.
        -- intros (_ & ? & _ & ?). done.
        -- intros [Hj Hjk]. split_and!; try done.
           destruct (decide (s ≤ j)%nat); [done|]. exfalso. apply Hin, Hdone.
           split; [done|]. exists j. split; [lia|done].
      * intros i Hi Hni. destruct (decide (i ∈ g0)) as [Hg0|Hg0].
        -- exists g0. split; [left|done].
        -- destruct (IH2 i) as (g & ? & ?); [|set_solver|exists g; split; [right|]; done].
           destruct (decide (i = s)) as [->|]; [|lia].
           exfalso. apply Hg0. unfold g0. apply find_compatible_spec. split_and!; done || lia.
Qed.

Lemma perimeter_groups_spec cfgs :
  (∀ g, g ∈ perimeter_groups cfgs →
     ∃ l, (l < length cfgs)%nat ∧ ∀ j, j ∈ g ↔ (j < length cfgs)%nat ∧ keyat cfgs j = keyat cfgs l) ∧
  (∀ i, (i < length cfgs)%nat → ∃ g, g ∈ perimeter_groups cfgs ∧ i ∈ g).
Proof.
  unfold perimeter_groups.
  destruct (perimeter_groups_from_spec cfgs 0 ∅) as [H1 H2].
  - intros j. split; [set_solver|]. intros (_ & m & Hm & _). lia.
  - rewrite Nat.sub_0_r in H1, H2. split; [done|]. intros i Hi. apply H2; [lia|set_solver].
Qed.

Section Runs.
Variable rmp : LayerRegion -> list Surface -> outcome (list Surface * list Surface).

Definition keeps_configs {A} (m : M A) : Prop :=
  ∀ L, region_configs (m L).1 = region_configs L ∧ length (regions (m L).1) = length (regions L).

Lemma keeps_ret {A} (a : A) : keeps_configs (mret a).
Proof. done. Qed.
Lemma keeps_lift {A} (o : outcome A) : keeps_configs (lift o).
Proof. done. Qed.
Lemma keeps_get : keeps_configs get_layer.
Proof. done. Qed.
Lemma keeps_bind {A B} (m : M A) (f : A → M B) :
  keeps_configs m → (∀ a, keeps_configs (f a)) → keeps_configs (mbind f m).
Proof.
  intros Hm Hf L. unfold mbind, M_bind. specialize (Hm L).
  destruct (m L) as [L1 [a|e|]]; simpl in *; [|done|done].
  destruct (Hf a L1). split; etrans; naive_solver.
Qed.
Lemma keeps_modify_region i f :
  (∀ r, region_config (f r) = region_config r) → keeps_configs (modify_region i f).
Proof.
  intros Hf L. unfold modify_region, modify, region_configs. simpl. rewrite length_alter.
  split; [|done]. apply list_eq. intros j. rewrite !list_lookup_fmap.
  destruct (decide (i = j)) as [->|Hne].
  - rewrite list_lookup_alter. destruct (regions L !! j); simpl; case_decide; simpl; try done; by rewrite Hf.
  - by rewrite list_lookup_alter_ne.
Qed.
Lemma keeps_modify_pe pe : keeps_configs (modify (set_perimeter_expolygons pe)).
Proof. done. Qed.

Create HintDb keeps.
#[local] Hint Resolve keeps_ret keeps_lift keeps_get keeps_bind keeps_modify_pe : keeps.
#[local] Hint Extern 1 (keeps_configs (modify_region _ _)) => apply keeps_modify_region; done : keeps.
#[local] Hint Extern 2 (keeps_configs (match ?x with _ => _ end)) => destruct x : keeps.
#[local] Hint Extern 2 (keeps_configs (if ?b then _ else _)) => destruct b : keeps.
#[local] Hint Extern 3 (∀ _, keeps_configs _) => intro : keeps.

Lemma keeps_merge_buckets bs : keeps_configs (merge_buckets bs).
Proof. induction bs as [|[k ss] bs IH]; simpl; eauto 10 with keeps. Qed.

Lemma keeps_redistribute fs ps ls : keeps_configs (redistribute fs ps ls).
Proof.
  induction ls as [|l ls IH]; simpl; [auto with keeps|].
  apply keeps_bind; [auto with keeps|]. intros L.
  destruct (regions L !! l); eauto 20 with keeps.
Qed.

Lemma keeps_process_group i g : keeps_configs (process_group rmp i g).
Proof.
  unfold process_group, make_perimeters_single, make_perimeters_group.
  destruct g as [|j [|k g]]; eauto 30 using keeps_merge_buckets, keeps_redistribute with keeps.
Qed.

Lemma find_compatible_head cfgs i :
  (i < length cfgs)%nat → ∃ rest, find_compatible cfgs i = i :: rest.
Proof.
  intros Hi. unfold find_compatible.
  destruct (cfgs !! i) eqn:E; [eauto|]. apply lookup_ge_None in E. lia.
Qed.

Lemma make_perimeters_loop_groups ids (dn : gset nat) L :
  Forall (λ i, i < length (regions L))%nat ids →
  make_perimeters_loop rmp ids dn L
  = run_groups rmp (perimeter_groups_from (region_configs L) ids dn) L.
Proof.
  revert dn L. induction ids as [|i ids IH]; intros dn L Hids; simpl; [done|].
  apply Forall_cons in Hids as [Hi Hids].
  case_decide; [by apply IH|].
  assert (Hlen : length (region_configs L) = length (regions L)) by apply length_map.
  destruct (find_compatible_head (region_configs L) i) as [rest Hrest]; [lia|].
  rewrite Hrest. cbn [run_groups]. unfold mbind, M_bind, get_layer.
  rewrite Hrest.
  destruct (keeps_process_group i (i :: rest) L) as [Hc Hl].
  destruct (process_group rmp i (i :: rest) L) as [L1 [[]|e|]] eqn:E; simpl in *; [|done|done].
  rewrite <- Hc. apply IH. eapply Forall_impl; [done|]. simpl. lia.
Qed.

Lemma make_perimeters_groups L :
  make_perimeters rmp L = run_groups rmp (perimeter_groups (region_configs L)) L.
Proof.
  unfold make_perimeters, perimeter_groups. unfold mbind, M_bind, get_layer.
  replace (length (region_configs L)) with (length (regions L)) by (symmetry; apply length_map).
  apply make_perimeters_loop_groups.
  apply Forall_forall. intros i Hi. apply list_elem_of_In, in_seq in Hi. lia.
Qed.

(** C6: [make_perimeters] processes the groups of [perimeter_groups];
    every region is in one of them, and two regions share a group exactly
    when their configurations agree on the eight compared fields. *)
Theorem make_perimeters_grouping (L : Layer) :
  make_perimeters rmp L = run_groups rmp (perimeter_groups (region_configs L)) L ∧
  (∀ i, (i < region_count L)%nat → ∃ g, g ∈ perimeter_groups (region_configs L) ∧ i ∈ g) ∧
  (∀ i j ri rj, regions L !! i = Some ri → regions L !! j = Some rj →
     ((∃ g, g ∈ perimeter_groups (region_configs L) ∧ i ∈ g ∧ j ∈ g) ↔
      perimeter_key (region_config ri) = perimeter_key (region_config rj))).
Proof.
  destruct (perimeter_groups_spec (region_configs L)) as [Hg Hcov].
  assert (Hlen : length (region_configs L) = region_count L) by apply length_map.
  assert (Hk : ∀ i r, regions L !! i = Some r →
            keyat (region_configs L) i = Some (perimeter_key (region_config r))).
  { intros i r Hr. unfold keyat, region_configs. by rewrite list_lookup_fmap, Hr. }
  split; [apply make_perimeters_groups|]. split.
  - intros i Hi. apply Hcov. lia.
  - intros i j ri rj Hi Hj. split.
    + intros (g & Hgin & Hig & Hjg). destruct (Hg g Hgin) as (l & _ & Hl).
      apply Hl in Hig as [_ Hil]. apply Hl in Hjg as [_ Hjl].
      rewrite (Hk i ri Hi) in Hil. rewrite (Hk j rj Hj) in Hjl. congruence.
    + intros Hij. destruct (Hcov i) as (g & Hgin & Hig).
      { apply lookup_lt_Some in Hi. unfold region_count in Hlen. lia. }
      exists g. split_and!; [done|done|].
      destruct (Hg g Hgin) as (l & _ & Hl). pose proof (proj1 (Hl i) Hig) as [_ Hil].
      apply Hl. split.
      * apply lookup_lt_Some in Hj. unfold region_count in Hlen. lia.
      * rewrite <- Hil, (Hk j rj Hj), (Hk i ri Hi). congruence.
Qed.

End Runs.
(** ** Neighbour links *)


Definition unlink_effect (A : Layer) (b : LayerPtr) (B : Layer) : Layer :=
  (if bool_decide (lower_layer A = Some b) then set_upper_layer None else id)
    ((if bool_decide (upper_layer A = Some b) then set_lower_layer None else id) B).

Lemma unlink_neighbors_ne (h : gmap LayerPtr Layer) a A b :
  h !! a = Some A → links_symmetric h → b ≠ a →
  unlink_neighbors a h !! b = unlink_effect A b <$> h !! b.
Proof.
  intros HA Hsym Hb. unfold unlink_neighbors, unlink_lower, unlink_upper, unlink_effect.
  rewrite HA. destruct (upper_layer A) as [u|] eqn:Hu.
  - destruct (decide (u = a)) as [->|Hua].
    + rewrite lookup_alter_eq, HA. simpl.
      destruct (Hsym a A HA) as [Hup _]. destruct (Hup a Hu) as (A' & HA' & HlA).
      rewrite HA in HA'. injection HA' as <-.
      rewrite lookup_alter_ne by done.
      destruct (h !! b); simpl; [|done]. rewrite HlA.
      rewrite !bool_decide_eq_false_2 by congruence. done.
    + rewrite lookup_alter_ne by done. rewrite HA.
      destruct (lower_layer A) as [l|] eqn:Hl; rewrite ?lookup_alter;
        repeat case_decide; subst; destruct (h !! b); simpl; try done;
        repeat first [rewrite bool_decide_eq_true_2 by done | rewrite bool_decide_eq_false_2 by congruence];
        try done; congruence.
  - rewrite HA. destruct (lower_layer A) as [l|] eqn:Hl; rewrite ?lookup_alter;
      repeat case_decide; subst; destruct (h !! b); simpl; try done;
      repeat first [rewrite bool_decide_eq_true_2 by done | rewrite bool_decide_eq_false_2 by congruence];
      try done; congruence.
Qed.

Lemma unlink_upper_regions (h : gmap LayerPtr Layer) a p P :
  h !! p = Some P → ∃ P', unlink_upper a h !! p = Some P' ∧ regions P' = regions P.
Proof.
  intros HP. unfold unlink_upper.
  destruct (h !! a) as [A|]; [destruct (upper_layer A)|]; [|eauto..].
  rewrite lookup_alter. case_decide; subst; rewrite HP; eexists; split; done.
Qed.

Lemma unlink_lower_regions (h : gmap LayerPtr Layer) a p P :
  h !! p = Some P → ∃ P', unlink_lower a h !! p = Some P' ∧ regions P' = regions P.
Proof.
  intros HP. unfold unlink_lower.
  destruct (h !! a) as [A|]; [destruct (lower_layer A)|]; [|eauto..].
  rewrite lookup_alter. case_decide; subst; rewrite HP; eexists; split; done.
Qed.

Lemma unlink_neighbors_self (h : gmap LayerPtr Layer) a A :
  h !! a = Some A → ∃ A1, unlink_neighbors a h !! a = Some A1 ∧ regions A1 = regions A.
Proof.
  intros HA. destruct (unlink_upper_regions h a a A HA) as (A0 & HA0 & HrA0).
  destruct (unlink_lower_regions (unlink_upper a h) a a A0 HA0) as (A1 & HA1 & HrA1).
  exists A1. split; [done|congruence].
Qed.

Lemma layer_destroy_ne (h : gmap LayerPtr Layer) a b :
  b ≠ a → layer_destroy a h !! b = unlink_neighbors a h !! b.
Proof.
  intros Hb. unfold layer_destroy, release_regions.
  rewrite lookup_delete_ne by done.
  destruct (unlink_neighbors a h !! a); [|done]. by rewrite lookup_insert_ne.
Qed.

(** C9: destroying layer [a] first clears the back-references of its
    neighbours (while [a] still owns its regions), then releases the
    regions; the symmetry of the links is kept by the destruction and by
    the construction of a new, unlinked layer. *)
Theorem layer_destroy_links (h : gmap LayerPtr Layer) (a : LayerPtr) (A : Layer) :
  h !! a = Some A → links_symmetric h →
  (∀ b B, b ≠ a → unlink_neighbors a h !! b = Some B →
     upper_layer B ≠ Some a ∧ lower_layer B ≠ Some a) ∧
  (∃ A1, unlink_neighbors a h !! a = Some A1 ∧ regions A1 = regions A) ∧
  (∀ b, b ≠ a → lower_layer A = Some b →
     ∃ B, layer_destroy a h !! b = Some B ∧ upper_layer B = None) ∧
  (∀ b, b ≠ a → upper_layer A = Some b →
     ∃ B, layer_destroy a h !! b = Some B ∧ lower_layer B = None) ∧
  layer_destroy a h !! a = None ∧
  links_symmetric (layer_destroy a h) ∧
  (∀ p id, h !! p = None → links_symmetric (<[p := new_layer id]> h)).
Proof.
  intros HA Hsym.
  destruct (Hsym a A HA) as [HupA HloA].
  split_and!.
  - intros b B Hb HB. rewrite unlink_neighbors_ne with (A := A) in HB by done.
    destruct (h !! b) as [B0|] eqn:HB0; [|done]. simpl in HB. injection HB as <-.
    destruct (Hsym b B0 HB0) as [Hup Hlo].
    unfold unlink_effect. split.
    + intros Hu. case_bool_decide as Hl; [done|].
      case_bool_decide; simpl in Hu; [|].
      * destruct (Hup a Hu) as (A' & HA' & HA'l). congruence.
      * destruct (Hup a Hu) as (A' & HA' & HA'l). congruence.
    + intros Hl. case_bool_decide; simpl in Hl; case_bool_decide; simpl in Hl; try done;
      destruct (Hlo a Hl) as (A' & HA' & HA'u); congruence.
  - by apply unlink_neighbors_self.
  - intros b Hb Hl. rewrite layer_destroy_ne, unlink_neighbors_ne with (A := A) by done.
    destruct (HloA b Hl) as (B & HB & _). rewrite HB. eexists; split; [done|].
    unfold unlink_effect. by rewrite bool_decide_eq_true_2 by done.
  - intros b Hb Hu. rewrite layer_destroy_ne, unlink_neighbors_ne with (A := A) by done.
    destruct (HupA b Hu) as (B & HB & _). rewrite HB. eexists; split; [done|].
    unfold unlink_effect. rewrite (bool_decide_eq_true_2 (upper_layer A = Some b)) by done. case_bool_decide; done.
  - unfold layer_destroy. apply lookup_delete_eq.
  - intros x X HX. destruct (decide (x = a)) as [->|Hxa].
    { unfold layer_destroy in HX. by rewrite lookup_delete_eq in HX. }
    rewrite layer_destroy_ne, unlink_neighbors_ne with (A := A) in HX by done.
    destruct (h !! x) as [X0|] eqn:HX0; [|done]. simpl in HX. injection HX as <-.
    destruct (Hsym x X0 HX0) as [Hup Hlo]. unfold unlink_effect. split.
    + intros y Hy.
      assert (Hy0 : upper_layer X0 = Some y ∧ lower_layer A ≠ Some x).
      { case_bool_decide; case_bool_decide; simpl in Hy; done. }
      destruct Hy0 as [Hy0 HAx]. clear Hy.
      destruct (Hup y Hy0) as (Y0 & HY0 & HY0l).
      assert (y ≠ a) by (intros ->; congruence).
      rewrite layer_destroy_ne, unlink_neighbors_ne with (A := A) by done.
      rewrite HY0. eexists; split; [done|]. unfold unlink_effect.
      repeat case_bool_decide; simpl; try done;
        match goal with
        | HAy : upper_layer A = Some y |- _ => destruct (HupA y HAy) as (?&?&?); congruence
        end.
    + intros y Hy.
      assert (Hy0 : lower_layer X0 = Some y ∧ upper_layer A ≠ Some x).
      { case_bool_decide; case_bool_decide; simpl in Hy; done. }
      destruct Hy0 as [Hy0 HAx]. clear Hy.
      destruct (Hlo y Hy0) as (Y0 & HY0 & HY0u).
      assert (y ≠ a) by (intros ->; congruence).
      rewrite layer_destroy_ne, unlink_neighbors_ne with (A := A) by done.
      rewrite HY0. eexists; split; [done|]. unfold unlink_effect.
      repeat case_bool_decide; simpl; try done;
        match goal with
        | HAy : lower_layer A = Some y |- _ => destruct (HloA y HAy) as (?&?&?); congruence
        end.
  - intros p id Hp x X HX. rewrite lookup_insert in HX. case_decide as Hxp.
    { subst. injection HX as <-. simpl. split; done. }
    destruct (Hsym x X HX) as [Hup Hlo]. split.
    + intros y Hy. destruct (Hup y Hy) as (Y & HY & HYl).
      assert (p ≠ y) by congruence. rewrite lookup_insert_ne by done. eauto.
    + intros y Hy. destruct (Hlo y Hy) as (Y & HY & HYu).
      assert (p ≠ y) by congruence. rewrite lookup_insert_ne by done. eauto.
Qed.

(** ** [make_slices] *)

Lemma make_slices_eq L :
  make_slices L =
    match merged_slices (regions L) with
    | Ok sl => (set_slices (order_slices sl) L, Ok tt)
    | Throw e => (L, Throw e)
    | Undefined => (L, Undefined)
    end.
Proof. unfold make_slices, mbind, M_bind, get_layer, lift, modify. simpl. by destruct (merged_slices _). Qed.

Lemma omap_lookup_seq_app {A} (l pre : list A) :
  omap (λ i, (pre ++ l) !! i) (seq (length pre) (length l)) = l.
Proof.
  revert pre. induction l as [|x l IH]; intros pre; [done|].
  simpl. rewrite list_lookup_middle by done.
  specialize (IH (pre ++ [x])). rewrite <- app_assoc, length_app in IH. simpl in IH.
  rewrite Nat.add_1_r in IH. rewrite <- IH at 2. done.
Qed.

Lemma omap_lookup_seq {A} (l : list A) : omap (λ i, l !! i) (seq 0 (length l)) = l.
Proof. apply (omap_lookup_seq_app l []). Qed.

Lemma order_slices_perm sl : order_slices sl ≡ₚ sl.
Proof.
  unfold order_slices. destruct (chained_path_spec (map first_point sl)) as [Hp _].
  rewrite Hp, length_map. by rewrite omap_lookup_seq.
Qed.

(** C7 (amended): on a layer with exactly one region, [make_slices]
    succeeds and the islands are that region's raw slices, reordered. *)
Theorem make_slices_single_region (L : Layer) (r : LayerRegion) :
  regions L = [r] →
  (make_slices L).2 = Ok tt ∧ slices (make_slices L).1 ≡ₚ map expolygon (lr_slices r).
Proof.
  intros Hr. rewrite make_slices_eq, Hr. simpl. split; [done|]. apply order_slices_perm.
Qed.

(** C8: [make_slices] depends on the regions only, and on success the
    islands are listed in the order [chained_path] gives to their first
    points: a permutation of the input indices, starting at index 0, each
    next index the nearest remaining one (the lower index on a tie). *)
Theorem make_slices_order (L L' : Layer) :
  (regions L = regions L' →
     (make_slices L).2 = (make_slices L').2 ∧
     ((make_slices L).2 = Ok tt → slices (make_slices L).1 = slices (make_slices L').1)) ∧
  (∀ sl, merged_slices (regions L) = Ok sl →
     let pts := map first_point sl in
     let ord := chained_path pts in
     slices (make_slices L).1 = omap (λ i, sl !! i) ord ∧
     ord ≡ₚ seq 0 (length sl) ∧
     (sl ≠ [] → head ord = Some 0%nat) ∧
     (∀ k i j m, ord !! k = Some i → ord !! S k = Some j → m ∈ drop (S k) ord →
        ∃ p, pts !! i = Some p ∧ nearer pts p j m)).
Proof.
  split.
  - intros HL. rewrite !make_slices_eq, HL. destruct (merged_slices _); simpl; done.
  - intros sl Hsl. cbv zeta. rewrite make_slices_eq, Hsl. simpl.
    destruct (chained_path_spec (map first_point sl)) as (Hp & Hh & Hg).
    split_and!; [reflexivity| | |done].
    2:{ intros Hne. apply Hh. by destruct sl. }
    rewrite Hp. by rewrite length_map.
Qed.

(** C10: with no regions (the union of no polygons being empty)
    [make_slices] succeeds with no islands; whenever the merge succeeds,
    the new islands replace the old ones wholesale. *)
Theorem make_slices_replaces (L : Layer) :
  (regions L = [] → union_ [] = Ok [] → make_slices L = (set_slices [] L, Ok tt)) ∧
  (∀ sl, merged_slices (regions L) = Ok sl →
     make_slices L = (set_slices (order_slices sl) L, Ok tt)).
Proof.
  split.
  - intros Hr Hu. rewrite make_slices_eq, Hr. unfold merged_slices, union_path. simpl.
    rewrite Hu. done.
  - intros sl Hsl. by rewrite make_slices_eq, Hsl.
Qed.
End Properties.

(** * Further properties of the layer code *)

Section Regions.
Context {FR : FloatRepr} {PA : PolygonAlgebra}.

Lemma set_regions_id L : set_regions (regions L) L = L.
Proof. by destruct L. Qed.

Lemma set_regions_twice rs rs' L : set_regions rs (set_regions rs' L) = set_regions rs L.
Proof. by destruct L. Qed.

(** [add_region] appends a fresh region: its handle is the old count, [get_region]
    finds the fresh region there, and the earlier regions keep their indices. *)
Theorem add_region_get_region c L :
  (add_region c L).2 = Ok (region_count L) ∧
  region_count (add_region c L).1 = S (region_count L) ∧
  get_region (Z.of_nat (region_count L)) (add_region c L).1
    = ((add_region c L).1, Ok (new_layer_region c)) ∧
  (∀ j, (j < region_count L)%nat → regions (add_region c L).1 !! j = regions L !! j) ∧
  (add_region c L).1 = set_regions (regions L ++ [new_layer_region c]) L.
Proof.
  unfold add_region, region_count, get_region. simpl. rewrite length_app. simpl.
  split_and!; [done|lia| |intros j Hj; by rewrite lookup_app_l|done].
  rewrite bool_decide_true by lia. rewrite Nat2Z.id, list_lookup_middle by done. done.
Qed.

(** Deleting the region just added restores the layer. *)
Theorem add_region_delete_region c L :
  delete_region (Z.of_nat (region_count L)) (add_region c L).1 = (L, Ok tt).
Proof.
  unfold add_region, delete_region, region_count. simpl. rewrite length_app. simpl.
  rewrite bool_decide_true by lia. rewrite Nat2Z.id.
  rewrite delete_middle, app_nil_r. f_equal. rewrite set_regions_twice. apply set_regions_id.
Qed.

(** In range, [delete_region] removes exactly the region at [idx]: the count
    drops by one and the later regions shift down by one index. *)
Theorem delete_region_in_range (idx : Z) L :
  (0 ≤ idx < Z.of_nat (region_count L))%Z →
  (delete_region idx L).2 = Ok tt ∧
  region_count (delete_region idx L).1 = pred (region_count L) ∧
  (∀ j, regions (delete_region idx L).1 !! j =
          if decide (j < Z.to_nat idx)%nat then regions L !! j else regions L !! S j) ∧
  (delete_region idx L).1 = set_regions (regions (delete_region idx L).1) L.
Proof.
  intros Hi. unfold delete_region, region_count in *. rewrite bool_decide_true by lia. simpl.
  split_and!; [done| |intros j|done].
  - rewrite length_delete; [lia|]. apply lookup_lt_is_Some. lia.
  - case_decide; [by rewrite list_lookup_delete_lt|]. rewrite list_lookup_delete_ge by lia. done.
Qed.

Lemma clear_regions_from_eq k L :
  length (regions L) = k → clear_regions_from k L = (set_regions [] L, Ok tt).
Proof.
  revert L. induction k as [|k IH]; intros L Hk.
  - simpl. destruct L as [? ? ? [|] ? ? ?]; simpl in *; [done|lia].
  - simpl. unfold mbind, M_bind, delete_region.
    rewrite bool_decide_true by lia. rewrite Nat2Z.id. simpl.
    rewrite IH; [by rewrite set_regions_twice|]. simpl.
    rewrite length_delete; [lia|]. apply lookup_lt_is_Some. lia.
Qed.

(** [clear_regions] always succeeds (every index it deletes is in range) and
    leaves the layer with no regions, everything else unchanged. *)
Theorem clear_regions_empties L : clear_regions L = (set_regions [] L, Ok tt).
Proof. unfold clear_regions. by apply clear_regions_from_eq. Qed.
End Regions.

Section Groups.
Context {FR : FloatRepr} {PA : PolygonAlgebra}.

Definition done_inv (cfgs : list PrintRegionConfig) (s : nat) (dn : gset nat) : Prop :=
  ∀ j, j ∈ dn ↔ (j < length cfgs ∧ ∃ m, m < s ∧ keyat cfgs m = keyat cfgs j)%nat.

Lemma done_inv_skip cfgs s dn : done_inv cfgs s dn → s ∈ dn → done_inv cfgs (S s) dn.
Proof.
  unfold done_inv. intros Hdone Hin j. rewrite Hdone.
  split; [intros (? & m0 & ? & ?); split; [done|exists m0; split; [lia|done]]|].
  intros (Hj & m & Hm & Hmk). split; [done|].
  destruct (decide (m = s)) as [->|]; [|exists m; split; [lia|done]].
  apply Hdone in Hin as (_ & m' & Hm' & Hmk'). exists m'. split; [lia|congruence].
Qed.

Lemma done_inv_add cfgs s dn :
  done_inv cfgs s dn → s ∉ dn → (s < length cfgs)%nat →
  done_inv cfgs (S s) (dn ∪ list_to_set (find_compatible cfgs s)).
Proof.
  unfold done_inv. intros Hdone Hin Hs j.
  rewrite elem_of_union, elem_of_list_to_set, find_compatible_spec, Hdone. split.
  - intros [(Hj & m & Hm & Hmk)|(_ & Hj & _ & Hk')]; split; try done.
    + exists m. split; [lia|done].
    + exists s. split; [lia|done].
  - intros (Hj & m & Hm & Hmk).
    destruct (decide (m = s)) as [->|]; [|left; split; [done|exists m; split; [lia|done]]].
    destruct (decide (s ≤ j)%nat); [right; split_and!; done|].
    exfalso. apply Hin, Hdone. split; [done|]. exists j. split; [lia|done].
Qed.

Lemma find_compatible_NoDup cfgs i : NoDup (find_compatible cfgs i).
Proof.
  unfold find_compatible. destruct (cfgs !! i); [|constructor].
  apply NoDup_cons. split.
  - rewrite list_elem_of_In, filter_In, in_seq. lia.
  - apply NoDup_ListNoDup, List.NoDup_filter, seq_NoDup.
Qed.

Lemma perimeter_groups_from_NoDup cfgs s dn :
  done_inv cfgs s dn →
  NoDup (concat (perimeter_groups_from cfgs (seq s (length cfgs - s)) dn)) ∧
  ∀ j, j ∈ concat (perimeter_groups_from cfgs (seq s (length cfgs - s)) dn) → j ∉ dn.
Proof.
  remember (length cfgs - s)%nat as k eqn:Hk.
  revert s dn Hk. induction k as [|k IH]; intros s dn Hk Hdone; simpl.
  - split; [constructor|]. intros j Hj. by apply elem_of_nil in Hj.
  - assert (Hs : (s < length cfgs)%nat) by lia.
    case_decide as Hin.
    + apply IH; [lia|]. by apply done_inv_skip.
    + destruct (IH (S s) _ ltac:(lia) (done_inv_add cfgs s dn Hdone Hin Hs)) as [IH1 IH2].
      assert (Hg : ∀ j, j ∈ find_compatible cfgs s → j ∉ dn).
      { unfold done_inv in Hdone. intros j Hj Hjd. apply find_compatible_spec in Hj as (_ & Hj & _ & Hjk).
        apply Hdone in Hjd as (_ & m & Hm & Hmk).
        apply Hin, Hdone. split; [done|]. exists m. split; [lia|congruence]. }
      split.
      * apply NoDup_app. split_and!; [apply find_compatible_NoDup| |done].
        intros j Hj Hj'. apply IH2 in Hj'. apply Hj'. apply elem_of_union_r.
        by apply elem_of_list_to_set.
      * intros j Hj. apply elem_of_app in Hj as [Hj|Hj]; [by apply Hg|].
        apply IH2 in Hj. set_solver.
Qed.

(** The groups, read one after the other, list every region index exactly once. *)
Theorem perimeter_groups_partition cfgs :
  concat (perimeter_groups cfgs) ≡ₚ seq 0 (length cfgs).
Proof.
  destruct (perimeter_groups_spec cfgs) as [Hg Hcov].
  apply NoDup_Permutation; [|apply NoDup_seq|].
  - unfold perimeter_groups. rewrite <- (Nat.sub_0_r (length cfgs)) at 1.
    apply perimeter_groups_from_NoDup. intros j. split; [set_solver|].
    intros (_ & m & Hm & _). lia.
  - intros j. rewrite elem_of_seq, list_elem_of_In, in_concat. split.
    + intros (g & Hgin & Hj). apply list_elem_of_In in Hgin, Hj.
      destruct (Hg g Hgin) as (l & _ & Hl). apply Hl in Hj. lia.
    + intros Hj. destruct (Hcov j) as (g & Hgin & Hjg); [lia|].
      exists g. split; by apply list_elem_of_In.
Qed.

(** [make_perimeters] runs the groups in turn, and every region is in exactly
    one group: no region is processed twice or skipped. *)
Theorem make_perimeters_each_region_once rmp L :
  make_perimeters rmp L = run_groups rmp (perimeter_groups (region_configs L)) L ∧
  concat (perimeter_groups (region_configs L)) ≡ₚ seq 0 (region_count L).
Proof.
  split; [apply make_perimeters_groups|].
  rewrite perimeter_groups_partition. unfold region_configs. by rewrite length_map.
Qed.
End Groups.

Section Frame.
Context {FR : FloatRepr} {PA : PolygonAlgebra}.
Variable rmp : LayerRegion -> list Surface -> outcome (list Surface * list Surface).

(** What [make_perimeters] must leave alone: the layer's identity, links,
    errors flag and islands, and each region's configuration and slices. *)
Definition layer_frame (L : Layer) :=
  (layer_id L, upper_layer L, lower_layer L, slicing_errors L, slices L,
   map (λ r, (region_config r, lr_slices r)) (regions L)).

Definition keeps_frame {A} (m : M A) : Prop := ∀ L, layer_frame (m L).1 = layer_frame L.

Lemma frame_ret {A} (a : A) : keeps_frame (mret a).
Proof. done. Qed.
Lemma frame_lift {A} (o : outcome A) : keeps_frame (lift o).
Proof. done. Qed.
Lemma frame_get : keeps_frame get_layer.
Proof. done. Qed.
Lemma frame_bind {A B} (m : M A) (f : A → M B) :
  keeps_frame m → (∀ a, keeps_frame (f a)) → keeps_frame (mbind f m).
Proof.
  intros Hm Hf L. unfold mbind, M_bind. specialize (Hm L).
  destruct (m L) as [L1 [a|e|]]; simpl in *; [|done|done]. by rewrite Hf.
Qed.
Lemma map_alter_invariant {A B} (g : A → B) (f : A → A) i (l : list A) :
  (∀ x, g (f x) = g x) → map g (alter f i l) = map g l.
Proof.
  intros Hf. apply list_eq. intros j. rewrite !list_lookup_fmap, list_lookup_alter.
  case_decide; [|done]. subst. destruct (l !! j); simpl; [by rewrite Hf|done].
Qed.
Lemma frame_modify_region i f :
  (∀ r, region_config (f r) = region_config r ∧ lr_slices (f r) = lr_slices r) →
  keeps_frame (modify_region i f).
Proof.
  intros Hf L. unfold modify_region, modify, layer_frame. simpl.
  rewrite map_alter_invariant; [done|]. intros r. by destruct (Hf r) as [-> ->].
Qed.
Lemma frame_modify_pe pe : keeps_frame (modify (set_perimeter_expolygons pe)).
Proof. done. Qed.

Create HintDb frame.
#[local] Hint Resolve frame_ret frame_lift frame_get frame_bind frame_modify_pe : frame.
#[local] Hint Extern 1 (keeps_frame (modify_region _ _)) =>
  apply frame_modify_region; intros; split; reflexivity : frame.
#[local] Hint Extern 2 (keeps_frame (match ?x with _ => _ end)) => destruct x : frame.
#[local] Hint Extern 2 (keeps_frame (if ?b then _ else _)) => destruct b : frame.
#[local] Hint Extern 3 (∀ _, keeps_frame _) => intro : frame.

Lemma frame_merge_buckets bs : keeps_frame (merge_buckets bs).
Proof. induction bs as [|[k ss] bs IH]; simpl; eauto 10 with frame. Qed.

Lemma frame_redistribute fs ps ls : keeps_frame (redistribute fs ps ls).
Proof.
  induction ls as [|l ls IH]; simpl; [auto with frame|].
  apply frame_bind; [auto with frame|]. intros L.
  destruct (regions L !! l); eauto 20 with frame.
Qed.

Lemma frame_process_group i g : keeps_frame (process_group rmp i g).
Proof.
  unfold process_group, make_perimeters_single, make_perimeters_group.
  destruct g as [|j [|k g]]; eauto 30 using frame_merge_buckets, frame_redistribute with frame.
Qed.

Lemma frame_run_groups gs : keeps_frame (run_groups rmp gs).
Proof.
  induction gs as [|[|i g] gs IH]; simpl; [apply frame_ret| |];
    apply frame_bind; auto using frame_ret; apply (frame_process_group i (i :: g)).
Qed.

(** Whatever the perimeter routine does, [make_perimeters] leaves the layer's id,
    links, error flag and islands, and each region's configuration and raw
    slices, unchanged (also when it fails part way). *)
Theorem make_perimeters_frame L :
  layer_frame (make_perimeters rmp L).1 = layer_frame L.
Proof. rewrite make_perimeters_groups. apply frame_run_groups. Qed.
End Frame.

Section Single_and_destroy.
Context {FR : FloatRepr} {PA : PolygonAlgebra}.

(** On a single-region layer whose routine succeeds, the region's perimeter and
    fill surfaces become exactly the routine's output (earlier ones dropped),
    and the layer's perimeter geometry is that of the new perimeters. *)
Theorem make_perimeters_single_region rmp (L : Layer) (r : LayerRegion) ps fs :
  regions L = [r] →
  rmp (set_perimeter_surfaces [] (set_fill_surfaces [] r)) (lr_slices r) = Ok (ps, fs) →
  make_perimeters rmp L
  = (set_perimeter_expolygons (map expolygon ps)
       (set_regions [set_perimeter_surfaces ps (set_fill_surfaces fs r)] L), Ok tt).
Proof.
  intros Hr Hf.
  unfold make_perimeters, mbind, M_bind, get_layer. rewrite Hr. simpl.
  rewrite decide_False by set_solver.
  unfold mbind, M_bind, get_layer, region_configs, find_compatible. rewrite Hr. simpl.
  unfold make_perimeters_single, modify_region, modify, mbind, M_bind, get_layer, lift. simpl.
  rewrite Hr. simpl. rewrite Hf. simpl. done.
Qed.

Lemma dom_unlink_neighbors (h : gmap LayerPtr Layer) a : dom (unlink_neighbors a h) = dom h.
Proof.
  unfold unlink_neighbors, unlink_lower, unlink_upper.
  repeat case_match; by rewrite ?dom_alter_L.
Qed.

(** Destroying a live layer [a] whose neighbour links are all to live layers
    frees [a] and no other layer. *)
Theorem layer_destroy_dom (h : gmap LayerPtr Layer) a A :
  h !! a = Some A → links_symmetric h →
  dom (layer_destroy a h) = dom h ∖ {[a]}.
Proof.
  intros _ _. unfold layer_destroy, release_regions. rewrite dom_delete_L.
  destruct (unlink_neighbors a h !! a) eqn:E.
  - rewrite dom_insert_L, dom_unlink_neighbors.
    apply elem_of_dom_2 in E. rewrite dom_unlink_neighbors in E. set_solver.
  - by rewrite dom_unlink_neighbors.
Qed.

(** Destroying [a] leaves every layer that is not a neighbour of [a] as it was;
    every other layer stays live and at most its two links change. *)
Theorem layer_destroy_others (h : gmap LayerPtr Layer) a A :
  h !! a = Some A → links_symmetric h →
  (∀ b, b ≠ a → upper_layer A ≠ Some b → lower_layer A ≠ Some b →
     layer_destroy a h !! b = h !! b) ∧
  (∀ b B, b ≠ a → h !! b = Some B →
     ∃ u l, layer_destroy a h !! b = Some (set_upper_layer u (set_lower_layer l B))).
Proof.
  intros HA Hsym. split.
  - intros b Hb Hu Hl. rewrite layer_destroy_ne, (unlink_neighbors_ne h a A b) by done.
    destruct (h !! b); [|done]. simpl. unfold unlink_effect.
    rewrite !bool_decide_eq_false_2 by done. done.
  - intros b B Hb HB. rewrite layer_destroy_ne, (unlink_neighbors_ne h a A b), HB by done.
    simpl. unfold unlink_effect.
    exists (if bool_decide (lower_layer A = Some b) then None else upper_layer B),
           (if bool_decide (upper_layer A = Some b) then None else lower_layer B).
    repeat case_bool_decide; by destruct B.
Qed.
End Single_and_destroy.

Section Buckets.
Context {FR : FloatRepr} {PA : PolygonAlgebra}.

(** [std::map::find] on the association list. *)
Fixpoint alookup (k : nat) (m : list (nat * list Surface)) : option (list Surface) :=
  match m with
  | [] => None
  | (k', ss) :: m' => if Nat.eqb k k' then Some ss else alookup k m'
  end.

Definition key_lt (a b : nat * list Surface) : Prop := (a.1 < b.1)%nat.

Definition nonempty (l : list Surface) : option (list Surface) :=
  match l with [] => None | _ => Some l end.

Definition with_count (k : nat) (l : list Surface) : list Surface :=
  List.filter (λ s, Nat.eqb (extra_perimeters s) k) l.

Lemma alookup_above k m : Forall (λ x, k < x.1)%nat m → alookup k m = None.
Proof.
  induction m as [|[k' ss] m IH]; intros Hm; [done|]. apply Forall_cons in Hm as [Hk Hm].
  simpl in *. destruct (Nat.eqb_spec k k'); [lia|]. by apply IH.
Qed.

Lemma map_push_above k0 k s m :
  Forall (λ x, k0 < x.1)%nat m → (k0 < k)%nat → Forall (λ x, k0 < x.1)%nat (map_push k s m).
Proof.
  induction m as [|[k' ss] m IH]; intros Hm Hk; simpl; [by repeat constructor|].
  apply Forall_cons in Hm as [Hk' Hm].
  destruct (Nat.eqb k k'); [by constructor|].
  destruct (Nat.ltb k k'); repeat constructor; auto.
Qed.

Lemma map_push_sorted k s m : StronglySorted key_lt m → StronglySorted key_lt (map_push k s m).
Proof.
  induction m as [|[k' ss] m IH]; intros Hm; simpl; [repeat constructor|].
  apply StronglySorted_inv in Hm as [Hm Hf].
  destruct (Nat.eqb_spec k k') as [->|Hne]; [by constructor|].
  destruct (Nat.ltb_spec k k').
  - constructor; [by constructor|]. constructor; [done|].
    eapply Forall_impl; [exact Hf|]. unfold key_lt. simpl. intros x Hx. lia.
  - constructor; [by apply IH|]. apply map_push_above; [done|simpl; lia].
Qed.

Lemma alookup_map_push k' k s m :
  StronglySorted key_lt m →
  alookup k' (map_push k s m)
  = if Nat.eqb k' k then Some (default [] (alookup k m) ++ [s]) else alookup k' m.
Proof.
  induction m as [|[k0 ss] m IH]; intros Hm; simpl; [by destruct (Nat.eqb k' k)|].
  apply StronglySorted_inv in Hm as [Hm Hf].
  destruct (Nat.eqb_spec k k0) as [->|Hne]; simpl.
  - destruct (Nat.eqb_spec k' k0); rewrite ?Nat.eqb_refl; done.
  - destruct (Nat.ltb_spec k k0); simpl.
    + destruct (Nat.eqb_spec k' k) as [->|]; [|done].
      destruct (Nat.eqb_spec k k0); [lia|].
      rewrite alookup_above; [done|].
      eapply Forall_impl; [exact Hf|]. unfold key_lt. simpl. intros x Hx. lia.
    + rewrite IH by done.
      destruct (Nat.eqb_spec k' k) as [->|]; [|done].
      destruct (Nat.eqb_spec k k0); [lia|done].
Qed.

Definition bucket_inv (pre : list Surface) (m : list (nat * list Surface)) : Prop :=
  StronglySorted key_lt m ∧ ∀ k, alookup k m = nonempty (with_count k pre).

Lemma bucket_inv_push pre m s :
  bucket_inv pre m → bucket_inv (pre ++ [s]) (map_push (extra_perimeters s) s m).
Proof.
  intros [Hs Hl]. split; [by apply map_push_sorted|]. intros k.
  rewrite alookup_map_push by done. unfold with_count. rewrite List.filter_app. simpl.
  destruct (Nat.eqb_spec k (extra_perimeters s)) as [->|Hne].
  - rewrite Nat.eqb_refl, Hl. unfold with_count.
    by destruct (List.filter _ pre).
  - destruct (Nat.eqb_spec (extra_perimeters s) k); [congruence|].
    rewrite app_nil_r. apply Hl.
Qed.

Lemma bucket_inv_foldl l pre m :
  bucket_inv pre m →
  bucket_inv (pre ++ l) (foldl (λ m s, map_push (extra_perimeters s) s m) m l).
Proof.
  revert pre m. induction l as [|s l IH]; intros pre m Hi; simpl; [by rewrite app_nil_r|].
  replace (pre ++ s :: l) with ((pre ++ [s]) ++ l) by (by rewrite <- app_assoc).
  apply IH. by apply bucket_inv_push.
Qed.

Lemma alookup_elem_of k ss m :
  StronglySorted key_lt m → (k, ss) ∈ m ↔ alookup k m = Some ss.
Proof.
  induction m as [|[k0 ss0] m IH]; intros Hm; simpl; [rewrite elem_of_nil; done|].
  apply StronglySorted_inv in Hm as [Hm Hf]. rewrite elem_of_cons, IH by done.
  destruct (Nat.eqb_spec k k0) as [->|Hne].
  - rewrite alookup_above.
    + split; [intros [[=->]|]; done|]. by intros [= ->]; left.
    + eapply Forall_impl; [exact Hf|]. unfold key_lt. simpl. intros x Hx. lia.
  - split; [intros [[=]|]; done|]. by right.
Qed.

(** The buckets of [std::map<unsigned short, Surfaces>]: ascending keys, and for
    each extra-perimeter count that occurs, the input surfaces with that count
    in input order. *)
Theorem bucket_slices_spec (layerms : list LayerRegion) :
  StronglySorted (λ a b, (a.1 < b.1)%nat) (bucket_slices layerms) ∧
  ∀ k ss, (k, ss) ∈ bucket_slices layerms ↔
     ss ≠ [] ∧ ss = List.filter (λ s, Nat.eqb (extra_perimeters s) k)
                                (concat (map lr_slices layerms)).
Proof.
  destruct (bucket_inv_foldl (concat (map lr_slices layerms)) [] [])
    as [Hs Hl]; [split; [constructor|done]|].
  split; [done|]. intros k ss. unfold bucket_slices.
  rewrite alookup_elem_of, Hl by done. unfold with_count. simpl.
  destruct (List.filter _ _); simpl; split; try naive_solver.
Qed.

Lemma merge_buckets_clones bs L :
  (∀ k ss, (k, ss) ∈ bs → ss ≠ []) →
  (merge_buckets bs L).1 = L ∧
  ((merge_buckets bs L).2 = Undefined →
     ∃ k ss, (k, ss) ∈ bs ∧ union_ex (surfaces_to_polygons ss) true = Undefined) ∧
  ∀ ns, (merge_buckets bs L).2 = Ok ns →
    ∀ s, s ∈ ns → ∃ k s0 rest, (k, s0 :: rest) ∈ bs ∧ s = clone_with s0 (expolygon s).
Proof.
  induction bs as [|[k ss] bs IH]; intros Hne; simpl.
  { split_and!; [done|done|]. intros ns [= <-] s Hs. by apply elem_of_nil in Hs. }
  destruct ss as [|s0 rest]; [by destruct (Hne k [] (proj2 (elem_of_cons _ _ _) (or_introl eq_refl)))|].
  unfold mbind, M_bind, lift. simpl.
  destruct (union_ex _ true) as [expp|e|] eqn:Hu; simpl; [|done|].
  2:{ split_and!; [done| |intros ns [=]]. intros _. exists k, (s0 :: rest).
      split; [apply elem_of_cons; by left|done]. }
  assert (Hcl : ∃ merged, clone_all (s0 :: rest) expp = Ok merged ∧
                  ∀ s, s ∈ merged → s = clone_with s0 (expolygon s)).
  { destruct expp as [|ex expp]; simpl.
    - exists []. split; [done|]. intros s Hs. by apply elem_of_nil in Hs.
    - eexists. split; [done|]. intros s Hs.
      change (s ∈ map (clone_with s0) (ex :: expp)) in Hs.
      apply list_elem_of_In, in_map_iff in Hs as (ex' & <- & _). done. }
  destruct Hcl as (merged & -> & Hm).
  destruct (IH (λ k' ss' H, Hne k' ss' (proj2 (elem_of_cons _ _ _) (or_intror H)))) as (H1 & H2 & H3).
  destruct (merge_buckets bs L) as [L1 [rest'|e|]] eqn:E; simpl in *; subst L1;
    split_and!; try done.
  - intros ns [= <-] s Hs. apply elem_of_app in Hs as [Hs|Hs].
    + exists k, s0, rest. split; [apply elem_of_cons; by left|by apply Hm].
    + destruct (H3 rest' eq_refl s Hs) as (k' & s1 & r1 & Hin & Heq).
      exists k', s1, r1. split; [apply elem_of_cons; by right|done].
  - intros _. destruct (H2 eq_refl) as (k' & ss' & Hin & Hu').
    exists k', ss'. split; [apply elem_of_cons; by right|done].
Qed.

(** Merging the buckets does not touch the layer; [front()] of an empty bucket
    is never reached; each merged slice takes its type and extra-perimeter
    count from the first input surface with that count. *)
Theorem merge_buckets_bucket_slices (layerms : list LayerRegion) L :
  (merge_buckets (bucket_slices layerms) L).1 = L ∧
  ((merge_buckets (bucket_slices layerms) L).2 = Undefined →
     ∃ k ss, (k, ss) ∈ bucket_slices layerms ∧ union_ex (surfaces_to_polygons ss) true = Undefined) ∧
  ∀ ns, (merge_buckets (bucket_slices layerms) L).2 = Ok ns →
    ∀ s, s ∈ ns → ∃ s0 rest,
      List.filter (λ t, Nat.eqb (extra_perimeters t) (extra_perimeters s))
                  (concat (map lr_slices layerms)) = s0 :: rest ∧
      surface_type s = surface_type s0 ∧ extra_perimeters s0 = extra_perimeters s.
Proof.
  destruct (bucket_slices_spec layerms) as [_ Hb].
  destruct (merge_buckets_clones (bucket_slices layerms) L) as (H1 & H2 & H3).
  { intros k ss Hin. by apply Hb in Hin as [? _]. }
  split_and!; [done|done|]. intros ns Hns s Hs.
  destruct (H3 ns Hns s Hs) as (k & s0 & rest & Hin & Heq).
  apply Hb in Hin as [_ Hf].
  assert (Hk : extra_perimeters s0 = k).
  { assert (Hs0 : s0 ∈ s0 :: rest) by (apply elem_of_cons; by left).
    rewrite Hf in Hs0. apply list_elem_of_In, filter_In in Hs0 as [_ Hs0].
    by apply Nat.eqb_eq. }
  assert (Hks : extra_perimeters s = k) by (rewrite Heq; done).
  exists s0, rest. rewrite Hks. split_and!; [done| |done]. by rewrite Heq.
Qed.
End Buckets.

Section Failure.
Context {FR : FloatRepr} {PA : PolygonAlgebra}.
Variable rmp : LayerRegion -> list Surface -> outcome (list Surface * list Surface).

(** The region at index [k] is not written by a run of [m]. *)
Definition keeps_region {A} (k : nat) (m : M A) : Prop :=
  ∀ L, regions (m L).1 !! k = regions L !! k.

Lemma region_ret {A} k (a : A) : keeps_region k (mret a).
Proof. done. Qed.
Lemma region_lift {A} k (o : outcome A) : keeps_region k (lift o).
Proof. done. Qed.
Lemma region_get k : keeps_region k get_layer.
Proof. done. Qed.
Lemma region_bind {A B} k (m : M A) (f : A → M B) :
  keeps_region k m → (∀ a, keeps_region k (f a)) → keeps_region k (mbind f m).
Proof.
  intros Hm Hf L. unfold mbind, M_bind. specialize (Hm L).
  destruct (m L) as [L1 [a|e|]]; simpl in *; [|done|done]. by rewrite Hf.
Qed.
Lemma region_modify_region k i f : i ≠ k → keeps_region k (modify_region i f).
Proof. intros Hi L. unfold modify_region, modify. simpl. by apply list_lookup_alter_ne. Qed.
Lemma region_modify_pe k pe : keeps_region k (modify (set_perimeter_expolygons pe)).
Proof. done. Qed.

Create HintDb region.
#[local] Hint Resolve region_ret region_lift region_get region_bind region_modify_pe : region.
#[local] Hint Extern 1 (keeps_region _ (modify_region _ _)) =>
  apply region_modify_region; first [congruence | set_solver] : region.
#[local] Hint Extern 2 (keeps_region _ (match ?x with _ => _ end)) => destruct x : region.
#[local] Hint Extern 2 (keeps_region _ (if ?b then _ else _)) => destruct b : region.
#[local] Hint Extern 3 (∀ _, keeps_region _ _) => intro : region.

Lemma region_merge_buckets k bs : keeps_region k (merge_buckets bs).
Proof. induction bs as [|[k' ss] bs IH]; simpl; eauto 10 with region. Qed.

Lemma region_redistribute k fs ps ls : k ∉ ls → keeps_region k (redistribute fs ps ls).
Proof.
  induction ls as [|l ls IH]; intros Hk; simpl; [auto with region|].
  apply not_elem_of_cons in Hk as [Hkl Hk].
  apply region_bind; [auto with region|]. intros L.
  destruct (regions L !! l); eauto 20 with region.
Qed.

Lemma region_process_group k i g : k ≠ i → k ∉ g → keeps_region k (process_group rmp i g).
Proof.
  intros Hi Hg. unfold process_group, make_perimeters_single, make_perimeters_group.
  destruct g as [|j [|l g]]; eauto 30 using region_merge_buckets, region_redistribute with region.
Qed.

Lemma region_run_groups k gs : k ∉ concat gs → keeps_region k (run_groups rmp gs).
Proof.
  induction gs as [|[|i g] gs IH]; intros Hk; simpl in Hk; cbn [run_groups]; [apply region_ret| |].
  - apply region_bind; [apply region_ret|]. intros _. by apply IH.
  - apply region_bind.
    + apply (region_process_group k i (i :: g)); set_solver.
    + intros _. apply IH. set_solver.
Qed.

(** [merge_buckets] only reads the surfaces it is given. *)
Lemma merge_buckets_state bs L L' : merge_buckets bs L = (L, (merge_buckets bs L').2).
Proof.
  revert L L'. induction bs as [|[k ss] bs IH]; intros L L'; [done|]. simpl.
  unfold mbind, M_bind, lift. simpl.
  destruct (union_ex _ true); simpl; [|done|done].
  destruct (clone_all _ _); simpl; [|done|done].
  rewrite (IH L L'), (IH L' L'). simpl. by destruct (merge_buckets bs L').2.
Qed.

Lemma run_groups_app gs pre L L1 :
  run_groups rmp pre L = (L1, Ok tt) → run_groups rmp (pre ++ gs) L = run_groups rmp gs L1.
Proof.
  revert L. induction pre as [|g pre IH]; intros L H; simpl in *.
  - by injection H as <-.
  - unfold mbind, M_bind in *. destruct g as [|i g]; [by apply IH|].
    destruct (process_group rmp i (i :: g) L) as [L' [[]|e|]]; [by apply IH|done|done].
Qed.

End Failure.

(** * Examples on the grid algebra *)

Module Grid_examples.
Import Grid.
Local Open Scope Z_scope.

Definition cfgA : PrintRegionConfig :=
  {| perimeter_extruder := 1; perimeters := 2; perimeter_speed := 30; gap_fill_speed := 20;
     overhangs := true; perimeter_extrusion_width := {| fop_value := 0; fop_percent := false |};
     thin_walls := true; external_perimeters_first := false |}.

(** [cfgA] with another perimeter extruder. *)
Definition cfgB : PrintRegionConfig :=
  {| perimeter_extruder := 2; perimeters := 2; perimeter_speed := 30; gap_fill_speed := 20;
     overhangs := true; perimeter_extrusion_width := {| fop_value := 0; fop_percent := false |};
     thin_walls := true; external_perimeters_first := false |}.

(** The [w] by [h] rectangle of cells with lower-left cell [(x0, y0)]. *)
Definition sq (x0 y0 w h : Z) : list cell :=
  flat_map (fun i => map (fun j => (x0 + Z.of_nat i, y0 + Z.of_nat j)) (seq 0 (Z.to_nat h)))
           (seq 0 (Z.to_nat w)).

Definition surf (t : SurfaceType) (e : list cell) : Surface :=
  {| surface_type := t; extra_perimeters := 0; expolygon := e |}.

Definition region (c : PrintRegionConfig) (sl fill : list Surface) : LayerRegion :=
  {| region_config := c; lr_slices := sl; perimeter_surfaces := []; fill_surfaces := fill |}.

Definition layer (rs : list LayerRegion) : Layer := set_regions rs (new_layer 0).

(** Fill surfaces left from an earlier run. *)
Definition stale : list Surface := [surf stInternal (sq 0 0 1 1)].

Definition mp (L : Layer) := make_perimeters grid_make_perimeters L.

(** Two compatible regions, each a 1 by 2 strip: their union has no interior. *)
Definition L1 := layer [region cfgA [surf stTop (sq 0 0 1 2)] stale;
                        region cfgA [surf stTop (sq 1 0 1 2)] stale].

(** C1 (failing input): the two strips form one group, the routine returns
    no fill, and both regions keep the fill surfaces of the earlier run. *)
Lemma c1_stale_fill :
  perimeter_groups (region_configs L1) = [[0; 1]%nat] ∧
  interior (sq 0 0 2 2) = [] ∧
  (mp L1).2 = Ok tt ∧
  map fill_surfaces (regions (mp L1).1) = [stale; stale].
Proof. vm_compute. split_and!; reflexivity. Qed.

Definition L2 := layer [region cfgA [surf stTop (sq 0 0 3 3)] [];
                        region cfgB [surf stTop (sq 5 0 3 3)] []].

(** C2 (failing input): two groups; the layer's perimeter geometry holds
    the perimeters of the last group only. *)
Lemma c2_last_group_only :
  perimeter_groups (region_configs L2) = [[0]; [1]]%nat ∧
  (mp L2).2 = Ok tt ∧
  map (fun r => map expolygon (perimeter_surfaces r)) (regions (mp L2).1)
    = [[[(0, 0); (0, 1); (1, 0); (0, 2); (2, 0); (1, 2); (2, 1); (2, 2)]];
       [[(5, 0); (5, 1); (6, 0); (5, 2); (7, 0); (6, 2); (7, 1); (7, 2)]]] ∧
  perimeter_expolygons (mp L2).1
    = [[(5, 0); (5, 1); (6, 0); (5, 2); (7, 0); (6, 2); (7, 1); (7, 2)]].
Proof. vm_compute. split_and!; reflexivity. Qed.

Definition r3 := region cfgA [surf stTop (sq 0 0 3 3)] [].
Definition L3 := layer [r3; region cfgA [surf stTop (sq 3 0 3 3)] []].

(** What the perimeter routine returns for the merged slices of [L3]. *)
Definition pooled3 : outcome (list Surface * list Surface) :=
  match (merge_buckets (bucket_slices (regions L3)) L3).2 with
  | Ok ns => grid_make_perimeters r3 ns
  | Throw e => Throw e
  | Undefined => Undefined
  end.

(** C3 (failing input): the pooled perimeter surfaces are [stTop], yet
    the pieces handed back to the regions are typed [stInternal], the
    type of the pooled fill surfaces. *)
Lemma c3_perimeter_retagged :
  perimeter_groups (region_configs L3) = [[0; 1]%nat] ∧
  match pooled3 with
  | Ok (ps, fs) => map surface_type ps = [stTop] ∧ map surface_type fs = [stInternal]
  | _ => False
  end ∧
  (mp L3).2 = Ok tt ∧
  map (fun r => map surface_type (perimeter_surfaces r)) (regions (mp L3).1)
    = [[stInternal]; [stInternal]].
Proof. vm_compute. split_and!; reflexivity. Qed.

Definition L4 := layer [region cfgA [] []].

(** C4 (failing input): out of range, [get_region] throws [OutOfRange]
    while [delete_region] has undefined behaviour. *)
Lemma c4_delete_region_unchecked :
  region_count L4 = 1%nat ∧
  get_region 1 L4 = (L4, Throw OutOfRange) ∧ delete_region 1 L4 = (L4, Undefined) ∧
  get_region (-1) L4 = (L4, Throw OutOfRange) ∧ delete_region (-1) L4 = (L4, Undefined).
Proof. vm_compute. split_and!; reflexivity. Qed.

(** A single region whose slices hold a zero-area surface. *)
Definition r5 := region cfgA [surf stTop []] stale.
Definition L5 := layer [r5].


(** A layer of two incompatible regions: region [0] is a 3 by 3 square,
    region [1] holds a zero-area surface; both carry stale fill. *)
Definition r5a := region cfgA [surf stTop (sq 0 0 3 3)] stale.
Definition r5b := region cfgB [surf stTop []] stale.
Definition L5b := layer [r5a; r5b].
(** The layer once the first group, region [0] alone, has been processed. *)
Definition L5b1 : Layer := (run_groups grid_make_perimeters [[0%nat]] L5b).1.

(** The same two regions with compatible configurations: one group. *)
Definition L5c := layer [r5a; region cfgA [surf stTop []] stale].


Definition r6a := region cfgA [surf stTop (sq 0 0 3 3)] [].
Definition r6c := region cfgA [surf stTop (sq 8 0 3 3)] [].
Definition L6 := layer [r6a; region cfgB [surf stTop (sq 4 0 3 3)] []; r6c].

(** Witness of [make_perimeters_grouping] (C6): regions 0 and 2 share
    their configuration, hence a group. *)
Lemma c6_witness :
  regions L6 !! 0%nat = Some r6a ∧ regions L6 !! 2%nat = Some r6c ∧
  ∃ g, g ∈ perimeter_groups (region_configs L6) ∧ 0%nat ∈ g ∧ 2%nat ∈ g.
Proof.
  split; [reflexivity|]. split; [reflexivity|].
  destruct (make_perimeters_grouping grid_make_perimeters L6) as (_ & _ & H).
  apply (H 0%nat 2%nat r6a r6c); reflexivity.
Defined.

(** One region whose two slices touch along an edge without overlapping. *)
Definition r7 := region cfgA [surf stTop [(0, 0)]; surf stTop [(1, 0)]] [].
Definition L7 := layer [r7].

(** C7 (counterexample): the region's slices do not overlap, but the
    shortcut keeps two islands where the union branch makes one. *)
Lemma c7_shortcut_differs :
  regions L7 = [r7] ∧ NoDup (concat (map expolygon (lr_slices r7))) ∧
  make_slices L7 ≠ make_slices_union_path L7.
Proof.
  split; [reflexivity|]. split.
  - apply (bool_decide_unpack _). vm_compute. reflexivity.
  - intros H. apply (f_equal (fun p => slices p.1)) in H. vm_compute in H. discriminate.
Qed.

(** Witness of [make_slices_single_region] (C7). *)
Lemma c7_witness :
  regions L7 = [r7] ∧
  (make_slices L7).2 = Ok tt ∧ slices (make_slices L7).1 ≡ₚ map expolygon (lr_slices r7).
Proof. split; [reflexivity|]. apply (make_slices_single_region L7 r7). reflexivity. Defined.

(** Three islands in two regions, listed far, near, middle from the origin. *)
Definition L8 := layer [region cfgA [surf stTop (sq 0 0 1 1); surf stTop (sq 6 0 1 1)] [];
                        region cfgB [surf stTop (sq 3 0 1 1)] []].
Definition sl8 : list (list cell) := [[(0, 0)]; [(6, 0)]; [(3, 0)]].

(** Witness of [make_slices_order] (C8): from [(0, 0)] the chain goes to
    the nearer [(3, 0)] before [(6, 0)]. *)
Lemma c8_witness :
  merged_slices (regions L8) = Ok sl8 ∧
  slices (make_slices L8).1 = omap (fun i => sl8 !! i) (chained_path (map first_point sl8)) ∧
  slices (make_slices L8).1 = [[(0, 0)]; [(3, 0)]; [(6, 0)]].
Proof.
  assert (Hm : merged_slices (regions L8) = Ok sl8) by reflexivity.
  split; [exact Hm|]. split.
  - destruct (make_slices_order L8 L8) as [_ H]. exact (proj1 (H sl8 Hm)).
  - vm_compute. reflexivity.
Defined.

Definition Lb : Layer := set_upper_layer (Some 1%nat) (new_layer 0).
Definition Lt : Layer := set_lower_layer (Some 0%nat) (new_layer 1).
Definition h9 : gmap LayerPtr Layer := <[0%nat := Lb]> {[1%nat := Lt]}.

(** Witness of [layer_destroy_links] (C9): a layer [0] below a layer [1];
    destroying [1] clears the upper link of [0]. *)
Lemma c9_witness :
  h9 !! 1%nat = Some Lt ∧ links_symmetric h9 ∧
  ∃ B, layer_destroy 1%nat h9 !! 0%nat = Some B ∧ upper_layer B = None.
Proof.
  assert (Hs : links_symmetric h9).
  { intros a A HA. unfold h9 in HA.
    apply lookup_insert_Some in HA as [[<- <-]|[_ HA]].
    - split; intros b Hb; [|discriminate]. injection Hb as <-.
      exists Lt. split; reflexivity.
    - apply lookup_singleton_Some in HA as [<- <-].
      split; intros b Hb; [discriminate|]. injection Hb as <-.
      exists Lb. split; reflexivity. }
  split; [reflexivity|]. split; [exact Hs|].
  destruct (layer_destroy_links h9 1%nat Lt eq_refl Hs) as (_ & _ & H & _).
  apply H; [lia|reflexivity].
Defined.

Definition L10 : Layer := set_slices [[(7, 7)]] (layer []).

(** Witness of [make_slices_replaces] (C10): the old island is dropped. *)
Lemma c10_witness :
  regions L10 = [] ∧ union_ [] = Ok [] ∧ make_slices L10 = (set_slices [] L10, Ok tt).
Proof.
  split; [reflexivity|]. split; [reflexivity|].
  destruct (make_slices_replaces L10) as [H _]. apply H; reflexivity.
Defined.

End Grid_examples.

(** * Witnesses of the further properties *)

Module Grid_extra_examples.
Import Grid.
Local Open Scope Z_scope.

Definition two_regions : Layer :=
  Grid_examples.layer [Grid_examples.region Grid_examples.cfgA [] [];
                       Grid_examples.region Grid_examples.cfgB [] []].

Lemma delete_region_in_range_witness :
  (0 ≤ 0 < Z.of_nat (region_count two_regions)) ∧
  region_count (delete_region 0 two_regions).1 = 1%nat ∧
  regions (delete_region 0 two_regions).1 !! 0%nat = regions two_regions !! 1%nat.
Proof.
  assert (H : (0 ≤ 0 < Z.of_nat (region_count two_regions)))
    by (change (region_count two_regions) with 2%nat; lia).
  split; [exact H|].
  destruct (delete_region_in_range 0 two_regions H) as (_ & Hc & Hl & _).
  split; [rewrite Hc; reflexivity|]. rewrite Hl. reflexivity.
Defined.

Definition r11 : LayerRegion :=
  Grid_examples.region Grid_examples.cfgA [Grid_examples.surf stTop (Grid_examples.sq 0 0 3 3)]
                       Grid_examples.stale.
Definition L11 : Layer := Grid_examples.layer [r11].
Definition out11 := grid_make_perimeters (set_perimeter_surfaces [] (set_fill_surfaces [] r11))
                                         (lr_slices r11).
Definition ps11 : list Surface := match out11 with Ok (ps, _) => ps | _ => [] end.
Definition fs11 : list Surface := match out11 with Ok (_, fs) => fs | _ => [] end.

Lemma make_perimeters_single_region_witness :
  out11 = Ok (ps11, fs11) ∧
  map expolygon fs11 = [[(1, 1)]] ∧
  make_perimeters grid_make_perimeters L11
  = (set_perimeter_expolygons (map expolygon ps11)
       (set_regions [set_perimeter_surfaces ps11 (set_fill_surfaces fs11 r11)] L11), Ok tt).
Proof.
  assert (H : out11 = Ok (ps11, fs11)) by (vm_compute; reflexivity).
  split; [exact H|]. split; [vm_compute; reflexivity|].
  apply (make_perimeters_single_region grid_make_perimeters L11 r11 ps11 fs11); [reflexivity|exact H].
Defined.

(** Three layers stacked [0], [1], [2]. *)
Definition l0 : Layer := set_upper_layer (Some 1%nat) (new_layer 0).
Definition l1 : Layer := set_lower_layer (Some 0%nat) (set_upper_layer (Some 2%nat) (new_layer 1)).
Definition l2 : Layer := set_lower_layer (Some 1%nat) (new_layer 2).
Definition stack : gmap LayerPtr Layer := <[0%nat := l0]> (<[1%nat := l1]> {[2%nat := l2]}).

Lemma stack_symmetric : links_symmetric stack.
Proof.
  intros a A HA. unfold stack in HA.
  rewrite !lookup_insert_Some, lookup_singleton_Some in HA.
  destruct HA as [[<- <-]|[_ [[<- <-]|[_ [<- <-]]]]];
    split; intros b Hb; try discriminate; injection Hb as <-;
    eexists; split; reflexivity.
Qed.

Lemma layer_destroy_dom_witness :
  stack !! 2%nat = Some l2 ∧ dom (layer_destroy 2%nat stack) = dom stack ∖ {[2%nat]}.
Proof.
  split; [reflexivity|].
  exact (layer_destroy_dom stack 2%nat l2 eq_refl stack_symmetric).
Defined.

Lemma layer_destroy_others_witness :
  stack !! 2%nat = Some l2 ∧ layer_destroy 2%nat stack !! 0%nat = Some l0.
Proof.
  split; [reflexivity|].
  destruct (layer_destroy_others stack 2%nat l2 eq_refl stack_symmetric) as [H _].
  refine (eq_trans (H 0%nat _ _ _) _); [lia|discriminate|discriminate|reflexivity].
Defined.

Definition L12 : Layer := Grid_examples.L3.
Definition ns12 : list Surface :=
  match (merge_buckets (bucket_slices (regions L12)) L12).2 with Ok ns => ns | _ => [] end.

Lemma merge_buckets_bucket_slices_witness :
  (merge_buckets (bucket_slices (regions L12)) L12).2 = Ok ns12 ∧
  map surface_type ns12 = [stTop] ∧
  ∀ s, s ∈ ns12 → ∃ s0 rest,
    List.filter (λ t, Nat.eqb (extra_perimeters t) (extra_perimeters s))
                (concat (map lr_slices (regions L12))) = s0 :: rest ∧
    surface_type s = surface_type s0 ∧ extra_perimeters s0 = extra_perimeters s.
Proof.
  assert (H : (merge_buckets (bucket_slices (regions L12)) L12).2 = Ok ns12)
    by (vm_compute; reflexivity).
  split; [exact H|]. split; [vm_compute; reflexivity|].
  destruct (merge_buckets_bucket_slices (regions L12) L12) as (_ & _ & H3).
  exact (H3 ns12 H).
Defined.

End Grid_extra_examples.
